(** * Spiral Gated Chat (phase 0.4): the gating control loop

    A shallow embedding of [lib/gating.ts], [lib/fragments.ts] and of the
    state part of the turn handler (the [POST] route), with the properties
    of the control loop proved over it.

    Number model.  A JavaScript [number] is modelled by a real number
    ([R]): [+ - * /], [Math.max], [Math.min], [Math.exp], [Math.log],
    [Math.sqrt] and [Math.pow] are the real operations, comparisons are the
    real order, and [Math.round x] is [floor (x + 1/2)].  Rounding error,
    NaN and the infinities of IEEE doubles are outside the model.  Turn
    counters and rounded budgets are integers ([Z]); arrays are lists,
    mutated objects are passed and returned explicitly. *)

From Stdlib Require Import Reals Lra Lia ZArith String Ascii Bool Psatz List Sorted.
Import ListNotations.

Open Scope R_scope.

(** ** Numbers *)

Module Num.

(** [a < b] and [a <= b] as the booleans a JavaScript test yields. *)
Definition ltb (a b : R) : bool := if Rlt_dec a b then true else false.
Definition leb (a b : R) : bool := if Rle_dec a b then true else false.

(** [function lerp(a, b, t) { return a + (b - a) * t; }] *)
Definition lerp (a b t : R) : R := a + (b - a) * t.

(** [function clamp(a, b, x) { return Math.max(a, Math.min(b, x)); }] *)
Definition clamp (a b x : R) : R := Rmax a (Rmin b x).

(** [function clamp01(x) { return clamp(0, 1, x); }] *)
Definition clamp01 (x : R) : R := clamp 0 1 x.

(** [clamp] on integer-valued numbers (the result of [Math.round]). *)
Definition clampZ (a b x : Z) : Z := Z.max a (Z.min b x).

(** [Math.round]: the nearest integer, halves rounded up. *)
Definition round (x : R) : Z := Zfloor (x + / 2).

(** [Math.pow] on a base in [[0, +oo)] with a positive exponent. *)
Definition Math_pow (x g : R) : R :=
  if Req_dec_T x 0 then 0 else Rpower x g.

(** [xs.reduce((a, b) => a + b, 0)] *)
Definition sum (xs : list R) : R := fold_left Rplus xs 0.

End Num.

Import Num.

(** ** [lib/types.ts] *)

Record RunningStats := mkStats { mean : R; var : R }.

Record TopTokenLogprob := mkTop { top_token : string; top_logprob : R }.

(** [top_logprobs?] is optional: [None] is the absent field. *)
Record TokenLogprob := mkTok {
  token : string;
  logprob : R;
  top_logprobs : option (list TopTokenLogprob)
}.

(** [meta_cap_stage: 0 | 1 | 2] *)
Inductive Stage := Stage0 | Stage1 | Stage2.

Definition stage_num (s : Stage) : nat :=
  match s with Stage0 => 0 | Stage1 => 1 | Stage2 => 2 end.

Record GateState := mkGate {
  S_stats : RunningStats;
  H_stats : RunningStats;
  last_state : R;
  meta_cap_stage : Stage;
  meta_cap_last_change_turn : Z;
  last_dims : list string;
  last_focus : list string;
  last_states : list R;
  last_pulse_turn : Z
}.

Record AttentionLogEntry := mkAttn {
  a_turn : Z;
  a_dim : string;
  a_focus : string;
  a_next : option string
}.

Record MemoryFragment := mkFrag {
  f_id : string;
  f_key : string;
  f_turn : Z;
  f_dim : option string;
  f_focus : option string;
  f_text : string;
  f_salience : R;
  f_last_used_turn : Z
}.

(** [Omit<MemoryFragment, "id" | "last_used_turn">] *)
Record IncomingFragment := mkIncoming {
  i_key : string;
  i_turn : Z;
  i_dim : option string;
  i_focus : option string;
  i_text : string;
  i_salience : R
}.

(** ** JavaScript idioms *)

(** A [string | null] in a condition: [null] and the empty string are falsy. *)
Definition truthy (o : option string) : bool :=
  match o with
  | Some s => negb (String.eqb s EmptyString)
  | None => false
  end.

(** [xs.slice(-n)]: the last [n] elements. *)
Definition lastn {A} (n : nat) (xs : list A) : list A :=
  skipn (length xs - n) xs.

(** [while (xs.length > maxLen) xs.shift()]; the loop runs at most
    [xs.length] times. *)
Fixpoint shift_loop {A} (fuel maxLen : nat) (xs : list A) : list A :=
  match fuel with
  | O => xs
  | S fuel' =>
      if (maxLen <? length xs)%nat then shift_loop fuel' maxLen (tl xs)
      else xs
  end.

Definition shift_while {A} (maxLen : nat) (xs : list A) : list A :=
  shift_loop (length xs) maxLen xs.

(** [s.includes("\n")] *)
Fixpoint includes_newline (s : string) : bool :=
  match s with
  | EmptyString => false
  | String c s' => Ascii.eqb c "010"%char || includes_newline s'
  end.

(** [new Set(xs).size] for an array of strings. *)
Definition set_size (xs : list string) : nat :=
  length (nodup string_dec xs).

(** ** [lib/gating.ts] *)

Definition EPS : R := 1e-8.

Definition createInitialGateState : GateState :=
  {| S_stats := mkStats 2 1;
     H_stats := mkStats 1 1;
     last_state := 0.3;
     meta_cap_stage := Stage0;
     meta_cap_last_change_turn := -999;
     last_dims := [];
     last_focus := [];
     last_states := [];
     last_pulse_turn := -999 |}.

Definition emaUpdate (stats : RunningStats) (x eta : R) : RunningStats :=
  let mean' := (1 - eta) * mean stats + eta * x in
  let diff := x - mean' in
  let var_ := (1 - eta) * var stats + eta * diff * diff in
  mkStats mean' (Rmax var_ EPS).


Definition sigmoid (x : R) : R := 1 / (1 + exp (- x)).

(** [for (const t of tokens) { out.push(t); if (out.length >= maxTokens)
    break; if (t.token.includes("\n")) break; }]; [n] is [out.length]
    before the push. *)
Fixpoint sliceFirstLine_from (n maxTokens : nat) (tokens : list TokenLogprob)
  : list TokenLogprob :=
  match tokens with
  | [] => []
  | t :: ts =>
      t :: (if (maxTokens <=? S n)%nat then []
            else if includes_newline (token t) then []
            else sliceFirstLine_from (S n) maxTokens ts)
  end.

Definition sliceFirstLine (tokens : list TokenLogprob) (maxTokens : nat)
  : list TokenLogprob :=
  sliceFirstLine_from 0 maxTokens tokens.

Definition meanSurprisal (tokens : list TokenLogprob) : option R :=
  match tokens with
  | [] => None
  | _ =>
      let vals := map (fun t => - logprob t) tokens in
      Some (sum vals / INR (length vals))
  end.

(** The inner loop of [approxEntropy]:
    [for (i ...) { const p = ps[i]; if (p > 0) H -= p * Math.log(p + EPS); }] *)
Definition entropy_terms (ps : list R) (H : R) : R :=
  fold_left (fun H p => if ltb 0 p then H - p * ln (p + EPS) else H) ps H.

(** The body of the outer loop for a token that carries alternatives. *)
Definition token_entropy (top : list TopTokenLogprob) : R :=
  let ps := map (fun x => exp (top_logprob x)) top in
  let sumP := sum ps in
  let r := Rmax 0 (1 - sumP) in
  let H := entropy_terms ps 0 in
  if ltb 0 r then H - r * ln (r + EPS) else H.

(** The outer loop: [Hs] collects one value per token with alternatives. *)
Fixpoint approxEntropy_loop (tokens : list TokenLogprob) (Hs : list R)
  : list R :=
  match tokens with
  | [] => Hs
  | t :: ts =>
      match top_logprobs t with
      | None | Some [] => approxEntropy_loop ts Hs
      | Some top => approxEntropy_loop ts (Hs ++ [token_entropy top])
      end
  end.

Definition approxEntropy (tokens : list TokenLogprob) : option R :=
  let Hs := approxEntropy_loop tokens [] in
  match Hs with
  | [] => None
  | _ => Some (sum Hs / INR (length Hs))
  end.

Definition hysteresisUpdate (prev raw up down inertia : R) : R :=
  let target := if leb up raw || leb raw down then raw else prev in
  let next := inertia * prev + (1 - inertia) * target in
  clamp01 next.

(** [if (x) xs.push(x)] for [x : string | null]. *)
Definition push_truthy (xs : list string) (x : option string) : list string :=
  match x with
  | Some v => if truthy x then xs ++ [v] else xs
  | None => xs
  end.

Definition updateStagnationBuffers (gs : GateState)
    (dim focus : option string) (state : R) (maxLen : nat) : GateState :=
  let dims1 := push_truthy (last_dims gs) dim in
  let focus1 := push_truthy (last_focus gs) focus in
  let states1 := last_states gs ++ [state] in
  {| S_stats := S_stats gs;
     H_stats := H_stats gs;
     last_state := last_state gs;
     meta_cap_stage := meta_cap_stage gs;
     meta_cap_last_change_turn := meta_cap_last_change_turn gs;
     last_dims := shift_while maxLen dims1;
     last_focus := shift_while maxLen focus1;
     last_states := shift_while maxLen states1;
     last_pulse_turn := last_pulse_turn gs |}.

Definition variance (xs : list R) : R :=
  if (length xs <=? 1)%nat then 0
  else
    let mean := sum xs / INR (length xs) in
    fold_left (fun acc x => acc + (x - mean) ^ 2) xs 0
      / INR (length xs - 1).

Definition lowDiversity (xs : list string) (uniqMax : nat) : bool :=
  (set_size xs <=? uniqMax)%nat.

Definition shouldExplorationPulse (gs : GateState) : bool :=
  if (length (last_states gs) <? 8)%nat then false
  else if (length (last_dims gs) <? 8)%nat then false
  else if (length (last_focus gs) <? 8)%nat then false
  else
    let v := variance (lastn 8 (last_states gs)) in
    let flat := ltb v 0.002 in
    let dimFlat := lowDiversity (lastn 8 (last_dims gs)) 1 in
    let focusLowDiv := lowDiversity (lastn 8 (last_focus gs)) 2 in
    flat && dimFlat && focusLowDiv.

(** ** [lib/fragments.ts] *)

(** [toUpperCase] on the ASCII letters (the dimension labels are ASCII). *)
Definition upper_ascii (c : ascii) : ascii :=
  let n := nat_of_ascii c in
  if ((97 <=? n) && (n <=? 122))%nat then ascii_of_nat (n - 32) else c.

Fixpoint toUpperCase (s : string) : string :=
  match s with
  | EmptyString => EmptyString
  | String c s' => String (upper_ascii c) (toUpperCase s')
  end.

Definition dimBonus (dim : option string) : R :=
  let d := toUpperCase (match dim with Some d => d | None => EmptyString end) in
  if String.eqb d "RISK" then 0.22
  else if String.eqb d "GOAL" then 0.16
  else if String.eqb d "NOVELTY" then 0.12
  else if String.eqb d "OPPORTUNITY" then 0.10
  else if String.eqb d "UNCERTAINTY" then 0.08
  else if String.eqb d "META" then 0.04
  else 0.0.

Definition salienceDecayFactor (state : R) : R :=
  let t := Math_pow (clamp01 state) 0.9 in
  lerp 0.55 0.93 t.

Definition set_salience (f : MemoryFragment) (s : R) : MemoryFragment :=
  {| f_id := f_id f; f_key := f_key f; f_turn := f_turn f;
     f_dim := f_dim f; f_focus := f_focus f; f_text := f_text f;
     f_salience := s; f_last_used_turn := f_last_used_turn f |}.

(** Returns the mutated array and [{ factor }]. *)
Definition decayFragments (frags : list MemoryFragment) (state : R)
  : list MemoryFragment * R :=
  let factor := salienceDecayFactor state in
  (map (fun f => set_salience f (clamp 0 1.2 (f_salience f * factor))) frags,
   factor).

Record UpsertResult := mkUpsert { added : bool; merged : bool; frag_id : string }.

(** The assignments of the merge branch, on the fragment found. *)
Definition merge_into (existing : MemoryFragment) (incoming : IncomingFragment)
  : MemoryFragment :=
  {| f_id := f_id existing;
     f_key := f_key existing;
     f_turn := i_turn incoming;
     f_dim := i_dim incoming;
     f_focus := i_focus incoming;
     f_text := i_text incoming;
     f_salience :=
       clamp 0 1.2 (Rmax (f_salience existing) (i_salience incoming) + 0.08);
     f_last_used_turn := f_last_used_turn existing |}.

(** The array after the object returned by [frags.find] was mutated: the
    first fragment with the key is the one replaced. *)
Fixpoint merge_first (frags : list MemoryFragment) (incoming : IncomingFragment)
  : list MemoryFragment :=
  match frags with
  | [] => []
  | f :: fs =>
      if String.eqb (f_key f) (i_key incoming)
      then merge_into f incoming :: fs
      else f :: merge_first fs incoming
  end.

(** [new_id] is the value of [makeFragmentId(turn)], which draws on
    [Math.random]. *)
Definition upsertFragment (frags : list MemoryFragment)
    (incoming : IncomingFragment) (new_id : string)
  : list MemoryFragment * UpsertResult :=
  let key := i_key incoming in
  match find (fun f => String.eqb (f_key f) key) frags with
  | Some existing =>
      (merge_first frags incoming, mkUpsert false true (f_id existing))
  | None =>
      (frags ++ [ {| f_id := new_id;
                     f_key := i_key incoming;
                     f_turn := i_turn incoming;
                     f_dim := i_dim incoming;
                     f_focus := i_focus incoming;
                     f_text := i_text incoming;
                     f_salience := i_salience incoming;
                     f_last_used_turn := -999 |} ],
       mkUpsert true false new_id)
  end.

(** [xs.sort((a, b) => b.salience - a.salience)]: a stable sort, highest
    salience first.  [a] stays in front of [b] unless [b] is strictly more
    salient. *)
Fixpoint insert_by_salience (a : MemoryFragment) (xs : list MemoryFragment)
  : list MemoryFragment :=
  match xs with
  | [] => [a]
  | b :: xs' =>
      if ltb (f_salience a) (f_salience b)
      then b :: insert_by_salience a xs'
      else a :: b :: xs'
  end.

Definition sort_by_salience (xs : list MemoryFragment) : list MemoryFragment :=
  fold_right insert_by_salience [] xs.

Definition pruneFragments (frags : list MemoryFragment) (turn : Z)
    (maxKeep : nat) : list MemoryFragment :=
  let kept :=
    filter (fun f => negb (ltb (f_salience f) 0.06 && (8 <? turn - f_turn f)%Z))
           frags in
  firstn maxKeep (sort_by_salience kept).

Definition pickTopFragments (frags : list MemoryFragment) (k : Z)
  : list MemoryFragment :=
  if (k <=? 0)%Z then []
  else firstn (Z.to_nat k) (sort_by_salience frags).

Definition rehearseFragments (frags picked : list MemoryFragment) (turn : Z)
  : list MemoryFragment :=
  let pickedIds := map f_id picked in
  map (fun f =>
         if existsb (String.eqb (f_id f)) pickedIds
         then {| f_id := f_id f; f_key := f_key f; f_turn := f_turn f;
                 f_dim := f_dim f; f_focus := f_focus f; f_text := f_text f;
                 f_salience := clamp 0 1.2 (f_salience f + 0.05);
                 f_last_used_turn := turn |}
         else f)
      frags.

(** ** The turn handler ([POST]) *)

Definition smoothstep (edge0 edge1 x : R) : R :=
  let t := clamp01 ((x - edge0) / (edge1 - edge0)) in
  t * t * (3 - 2 * t).

Definition powEase (x gamma : R) : R := Math_pow (clamp01 x) gamma.

Definition metaCapValue (stage : Stage) : option R :=
  match stage with
  | Stage0 => Some 0.55
  | Stage1 => Some 0.65
  | Stage2 => None
  end.

Definition recentMetaShare (gs : GateState) (window : nat) : option R :=
  let dims := lastn window (last_dims gs) in
  if (length dims <? window)%nat then None
  else
    let meta := length (filter (fun d => String.eqb d "META") dims) in
    Some (INR meta / INR (length dims)).

Definition set_stage (gs : GateState) (stage : Stage) (turn : Z) : GateState :=
  {| S_stats := S_stats gs;
     H_stats := H_stats gs;
     last_state := last_state gs;
     meta_cap_stage := stage;
     meta_cap_last_change_turn := turn;
     last_dims := last_dims gs;
     last_focus := last_focus gs;
     last_states := last_states gs;
     last_pulse_turn := last_pulse_turn gs |}.

(** Returns the gate state after the call, [changed] and [metaShare]. *)
Definition maybeRelaxMetaCapStage (gs : GateState) (turn : Z)
  : GateState * bool * option R :=
  match recentMetaShare gs 12 with
  | None => (gs, false, None)
  | Some share =>
      let minInterval :=
        match meta_cap_stage gs with Stage1 => 18%Z | _ => 12%Z end in
      if (turn - meta_cap_last_change_turn gs <? minInterval)%Z
      then (gs, false, Some share)
      else
        match meta_cap_stage gs with
        | Stage0 =>
            if leb share 0.25 then (set_stage gs Stage1 turn, true, Some share)
            else (gs, false, Some share)
        | Stage1 =>
            if leb share 0.17 then (set_stage gs Stage2 turn, true, Some share)
            else (gs, false, Some share)
        | Stage2 => (gs, false, Some share)
        end
  end.

(** [dim === name] for [dim : string | null]. *)
Definition dim_is (dim : option string) (name : string) : bool :=
  match dim with
  | Some d => String.eqb d name
  | None => false
  end.

(** Returns [raw] and [metaCap]; the notes are text only. *)
Definition applyDimWeight (rawState : R) (dim : option string) (gs : GateState)
  : R * option R :=
  let s := rawState in
  let s :=
    if dim_is dim "RISK" then
      let base := clamp01 s in
      let boost := lerp 0.22 0.08 base in
      clamp01 (s + boost)
    else s in
  if dim_is dim "META" then
    match metaCapValue (meta_cap_stage gs) with
    | Some cap => (Rmin s cap, Some cap)
    | None => (s, None)
    end
  else (s, None).

(** *** Gradient budgets, as functions of the state *)

Definition ctx_keep_msgs (state : R) : Z :=
  clampZ 4 18 (round (lerp 4 18 (powEase state 1.25))).

Definition summary_chars (state : R) : Z :=
  round (lerp 0 220 (smoothstep 0.22 0.62 state)).

Definition attn_items (state : R) : Z :=
  clampZ 0 10 (round (lerp 0 10 (smoothstep 0.35 0.85 state))).

(** [sess.memory.fragments.length ? Math.max(...saliences) : 0] *)
Definition topSalience (frags : list MemoryFragment) : R :=
  match frags with
  | [] => 0
  | f :: fs => fold_left Rmax (map f_salience fs) (f_salience f)
  end.

Definition frag_items (state top : R) : Z :=
  let base := clampZ 0 10 (round (lerp 0 10 (smoothstep 0.20 0.86 state))) in
  if (base =? 0)%Z && ltb 0.9 top then 1%Z else base.

Definition summary_update_interval (state : R) : Z :=
  clampZ 1 18 (round (lerp 18 1 (powEase state 1.4))).

Definition summary_update_max_tokens (state : R) : Z :=
  clampZ 20 120 (round (lerp 25 90 (powEase state 1.2))).

Definition max_output_tokens (state : R) (pulse_triggered : bool) : Z :=
  let base := round (lerp 60 520 state) in
  if pulse_triggered then Z.max base 120 else base.

Definition temperature (state : R) : R :=
  clamp 0 1.2 (lerp 0.05 0.7 state).

(** *** Session and request *)

Record Fields := mkFields {
  dim : option string;
  focus : option string;
  next : option string;
  why : option string
}.

Record ProbeFields := mkProbe { raw : string; fields : Fields }.

(** The part of [Session] the state computation reads and writes;
    [history] and [memory.summary] only feed the prompts. *)
Record Session := mkSession {
  gate : GateState;
  attn_log : list AttentionLogEntry;
  fragments : list MemoryFragment;
  turn : Z
}.

(** What the outside world supplies during one validated turn: the
    completion service's answers to the probe, exploration, verification
    and main requests ([None]: the call threw) and the random suffix
    drawn by [makeFragmentId]. *)
Record TurnInput := mkInput {
  probe : option (string * list TokenLogprob);
  explore : option string;
  verify : option string;
  new_fragment_id : string;
  main : option string
}.

Record Budgets := mkBudgets {
  b_ctx_keep_msgs : Z;
  b_summary_chars : Z;
  b_attn_items : Z;
  b_frag_items : Z;
  b_summary_update_interval : Z;
  b_summary_update_max_tokens : Z;
  b_max_output_tokens : Z;
  b_temperature : R
}.

Record Debug := mkDebug {
  d_effective : ProbeFields;
  d_surprisal : option R;
  d_entropy : option R;
  d_score : option R;
  d_state : R;
  d_pulse_triggered : bool;
  d_pulse_picked : option Z;
  d_meta_changed : bool;
  d_budgets : Budgets;
  d_injected : list MemoryFragment
}.

(** What a turn does besides changing the session: whether the request
    for alternative probe candidates was sent to the completion service,
    and what the handler answers, the debug payload of a 200 answer or
    [None] for a 500 answer. *)
Record Outcome := mkOutcome {
  candidates_requested : bool;
  response : option Debug
}.

Definition getSession_new : Session :=
  mkSession createInitialGateState [] [] 0.

Definition ETA : R := 0.06.

(** The inline baseline step, written twice in the handler (for [S] and
    for [H]): the z-score against the old baseline, then the new baseline. *)
Definition baselineStep (st : RunningStats) (x : R) : R * RunningStats :=
  let z := (x - mean st) / sqrt (var st + 1e-8) in
  let mean' := (1 - ETA) * mean st + ETA * x in
  let d := x - mean' in
  let var' := (1 - ETA) * var st + ETA * d * d in
  (z, mkStats mean' var').

Definition baselinePhase (st : RunningStats) (x : option R)
  : option R * RunningStats :=
  match x with
  | Some v => let '(z, st') := baselineStep st v in (Some z, st')
  | None => (None, st)
  end.

Definition or_zero (z : option R) : R :=
  match z with Some v => v | None => 0 end.

(** [score] and [rawStateFromScore]. *)
Definition scorePhase (prev : R) (zS zH : option R) : option R * R :=
  match zS, zH with
  | None, None => (None, prev)
  | _, _ =>
      let score := 0.7 * or_zero zS + 0.3 * or_zero zH in
      (Some score, 1 / (1 + exp (- score / 1.2)))
  end.

(** [last_dims.length ? last_dims[last_dims.length - 1] : null] *)
Definition repeatingDim (gs : GateState) : option string :=
  nth_error (last_dims gs) (length (last_dims gs) - 1).

(** The guard of the exploration pulse. *)
Definition pulseGuard (gs : GateState) (turn : Z) : bool :=
  let stagnationDetected := shouldExplorationPulse gs in
  let cooldownOk := (6 <=? turn - last_pulse_turn gs)%Z in
  let notRiskLoop := negb (dim_is (repeatingDim gs) "RISK") in
  let boredomish := ltb (last_state gs) 0.6 in
  stagnationDetected && cooldownOk && notRiskLoop && boredomish.

Definition set_last_state (gs : GateState) (s : R) : GateState :=
  {| S_stats := S_stats gs;
     H_stats := H_stats gs;
     last_state := s;
     meta_cap_stage := meta_cap_stage gs;
     meta_cap_last_change_turn := meta_cap_last_change_turn gs;
     last_dims := last_dims gs;
     last_focus := last_focus gs;
     last_states := last_states gs;
     last_pulse_turn := last_pulse_turn gs |}.

Definition set_last_pulse_turn (gs : GateState) (t : Z) : GateState :=
  {| S_stats := S_stats gs;
     H_stats := H_stats gs;
     last_state := last_state gs;
     meta_cap_stage := meta_cap_stage gs;
     meta_cap_last_change_turn := meta_cap_last_change_turn gs;
     last_dims := last_dims gs;
     last_focus := last_focus gs;
     last_states := last_states gs;
     last_pulse_turn := t |}.

Definition set_baselines (gs : GateState) (s h : RunningStats) : GateState :=
  {| S_stats := s;
     H_stats := h;
     last_state := last_state gs;
     meta_cap_stage := meta_cap_stage gs;
     meta_cap_last_change_turn := meta_cap_last_change_turn gs;
     last_dims := last_dims gs;
     last_focus := last_focus gs;
     last_states := last_states gs;
     last_pulse_turn := last_pulse_turn gs |}.

Section Handler.

(** The text functions of the handler are regular-expression matchers
    and string formatters; the state computation only consumes their
    results. *)
Variable parseProbeFields : string -> Fields.
Variable parseCandidates : string -> list ProbeFields.
Variable parsePick : string -> option Z.
Variable fragmentText : option string -> option string -> option string -> string.
Variable makeFragmentKey : option string -> option string -> option string -> string.

(** The body of the [try] block of the pulse: the selected candidate and
    its 1-based index, or [None] when the pulse is abandoned or a call
    threw. *)
Definition explorationPulse (inp : TurnInput) : option (ProbeFields * Z) :=
  match explore inp with
  | None => None
  | Some candidatesText =>
      let cands := parseCandidates candidatesText in
      if (2 <=? length cands)%nat then
        match verify inp with
        | None => None
        | Some pickText =>
            let pick :=
              match parsePick pickText with Some p => p | None => 1%Z end in
            let idx := (clampZ 1 (Z.of_nat (length cands)) pick - 1)%Z in
            match nth_error cands (Z.to_nat idx) with
            | Some selected => Some (selected, (idx + 1)%Z)
            | None => None
            end
        end
      else None
  end.

Definition attnLogUpdate (log : list AttentionLogEntry) (turn : Z)
    (eff : Fields) : list AttentionLogEntry :=
  match dim eff, focus eff with
  | Some d, Some f =>
      if truthy (dim eff) && truthy (focus eff)
      then shift_while 30 (log ++ [mkAttn turn d f (next eff)])
      else log
  | _, _ => log
  end.

Definition fragmentPhase (frags : list MemoryFragment) (turn : Z)
    (eff : Fields) (state : R) (new_id : string) : list MemoryFragment :=
  let '(frags1, _) := decayFragments frags state in
  let baseFragText := fragmentText (dim eff) (focus eff) (next eff) in
  let frags2 :=
    if String.eqb baseFragText EmptyString then frags1
    else
      let initSalience :=
        clamp 0 1.2 (0.25 + 0.55 * state + dimBonus (dim eff)) in
      let key := makeFragmentKey (dim eff) (focus eff) (next eff) in
      fst (upsertFragment frags1
             (mkIncoming key turn (dim eff) (focus eff) baseFragText
                         initSalience)
             new_id) in
  pruneFragments frags2 turn 40.

(** One validated turn.  The session returned is the session as the
    handler leaves it: all its mutations of the gate state, the attention
    log and the fragment bank come before the main completion call and
    stay when that call throws.  When the probe call throws only the turn
    counter has moved and the answer is 500; when the main call throws the
    answer is 500 as well; otherwise the answer carries the debug
    payload. *)
Definition POST (sess : Session) (inp : TurnInput) : Session * Outcome :=
  let turn := (turn sess + 1)%Z in
  match probe inp with
  | None =>
      (mkSession (gate sess) (attn_log sess) (fragments sess) turn,
       mkOutcome false None)
  | Some (probeText, probeLogprobs) =>
      let originalProbe := mkProbe probeText (parseProbeFields probeText) in
      let firstLine := sliceFirstLine probeLogprobs 30 in
      let S := meanSurprisal firstLine in
      let H := approxEntropy firstLine in
      let g0 := gate sess in
      let '(zS, statsS) := baselinePhase (S_stats g0) S in
      let '(zH, statsH) := baselinePhase (H_stats g0) H in
      let '(score, rawStateFromScore) := scorePhase (last_state g0) zS zH in
      let g1 := set_baselines g0 statsS statsH in
      let attempted := pulseGuard g1 turn in
      let selected := if attempted then explorationPulse inp else None in
      let effectiveProbe :=
        match selected with Some (c, _) => c | None => originalProbe end in
      let triggered :=
        match selected with Some _ => true | None => false end in
      let g2 :=
        match selected with
        | Some _ => set_last_pulse_turn g1 turn
        | None => g1
        end in
      let eff := fields effectiveProbe in
      let dimWeighted := applyDimWeight rawStateFromScore (dim eff) g2 in
      let state :=
        hysteresisUpdate (last_state g2) (fst dimWeighted) 0.62 0.48 0.6 in
      let g3 := set_last_state g2 state in
      let g4 := updateStagnationBuffers g3 (dim eff) (focus eff) state 12 in
      let '(g5, changed, _) := maybeRelaxMetaCapStage g4 turn in
      let log := attnLogUpdate (attn_log sess) turn eff in
      let frags := fragmentPhase (fragments sess) turn eff state
                                 (new_fragment_id inp) in
      let budgets :=
        {| b_ctx_keep_msgs := ctx_keep_msgs state;
           b_summary_chars := summary_chars state;
           b_attn_items := attn_items state;
           b_frag_items := frag_items state (topSalience frags);
           b_summary_update_interval := summary_update_interval state;
           b_summary_update_max_tokens := summary_update_max_tokens state;
           b_max_output_tokens := max_output_tokens state triggered;
           b_temperature := temperature state |} in
      let fragPicked := pickTopFragments frags (b_frag_items budgets) in
      let frags' :=
        match fragPicked with
        | [] => frags
        | _ => rehearseFragments frags fragPicked turn
        end in
      (mkSession g5 log frags' turn,
       mkOutcome attempted
         (match main inp with
          | None => None
          | Some assistantText =>
              Some {| d_effective := effectiveProbe;
                      d_surprisal := S;
                      d_entropy := H;
                      d_score := score;
                      d_state := state;
                      d_pulse_triggered := triggered;
                      d_pulse_picked :=
                        match selected with
                        | Some (_, k) => Some k
                        | None => None
                        end;
                      d_meta_changed := changed;
                      d_budgets := budgets;
                      d_injected := fragPicked |}
          end))
  end.

(** A session's life: the turns handled one after the other. *)
Fixpoint run (sess : Session) (inps : list TurnInput) : Session :=
  match inps with
  | [] => sess
  | inp :: rest => run (fst (POST sess inp)) rest
  end.

End Handler.

(** ** Specification-side definitions and test inputs *)

(** The update as the specification words it, with the band closed at both
    ends; compared with [hysteresisUpdate] below. *)
Definition hysteresis_closed_band (prev raw : R) : R :=
  let target := if leb 0.48 raw && leb raw 0.62 then prev else raw in
  clamp01 (0.6 * prev + 0.4 * target).

(** A probe answer of one token with log-probability [-2] and no
    alternatives: surprisal [2], entropy unavailable; the main call
    answers. *)
Definition steady_probe : TurnInput :=
  mkInput (Some ("DIM: GOAL"%string, [mkTok "DIM" (-2) None])) None None
          "f_0"%string (Some "Noted."%string).


(** Highest salience first. *)
Definition descending (xs : list MemoryFragment) : Prop :=
  StronglySorted (fun a b => f_salience b <= f_salience a) xs.

(** The buffer part of a session replayed on its own: one call of
    [updateStagnationBuffers] per turn, from a fresh gate state. *)
Definition replay_buffers (calls : list (option string * option string * R))
  : GateState :=
  fold_left
    (fun gs c => updateStagnationBuffers gs (fst (fst c)) (snd (fst c)) (snd c) 12)
    calls createInitialGateState.

(** Fourteen turns; on the tenth the probe yields neither a dimension nor a
    focus. *)
Definition gap_calls : list (option string * option string * R) :=
  [ (Some "GOAL", Some "t1", 0.01); (Some "META", Some "t2", 0.02);
    (Some "META", Some "t3", 0.03); (Some "META", Some "t4", 0.04);
    (Some "META", Some "t5", 0.05); (Some "META", Some "t6", 0.06);
    (Some "META", Some "t7", 0.07); (Some "META", Some "t8", 0.08);
    (Some "META", Some "t9", 0.09); (None, None, 0.10);
    (Some "META", Some "t11", 0.11); (Some "META", Some "t12", 0.12);
    (Some "META", Some "t13", 0.13); (Some "META", Some "t14", 0.14) ]%string.

(** The stage moves of the META cap governor: stay, 0 to 1, 1 to 2. *)
Definition relaxes (a b : Stage) : Prop :=
  b = a \/ (a = Stage0 /\ b = Stage1) \/ (a = Stage1 /\ b = Stage2).

(** The sample variance (divisor [n - 1]) of [xs], for at least two
    values. *)
Definition sample_variance (xs : list R) : R :=
  let n := INR (length xs) in
  let mu := sum xs / n in
  sum (map (fun x => (x - mu) ^ 2) xs) / (n - 1).

(** [xs] takes at most [n] distinct values. *)
Definition at_most_distinct {A} (n : nat) (xs : list A) : Prop :=
  exists vals, (length vals <= n)%nat /\ incl xs vals.

(** A session that has repeated one frame for eight turns. *)
Definition stagnant_session : Session :=
  mkSession
    {| S_stats := mkStats 2 1;
       H_stats := mkStats 1 1;
       last_state := 0.3;
       meta_cap_stage := Stage0;
       meta_cap_last_change_turn := -999;
       last_dims := repeat "GOAL"%string 8;
       last_focus := repeat "release plan"%string 8;
       last_states := repeat 0.3 8;
       last_pulse_turn := -999 |}
    [] [] 8.

(** Stand-ins for the text functions, used where a property is run on a
    concrete turn. *)
Definition fields_of_probe (_ : string) : Fields :=
  mkFields (Some "RISK"%string) (Some "data loss"%string) None None.
Definition no_candidates (_ : string) : list ProbeFields := [].
Definition no_pick (_ : string) : option Z := None.
Definition text_of_frame (d f n : option string) : string :=
  match d, f with
  | Some d, Some f => ("(" ++ d ++ ") " ++ f)%string
  | _, _ => EmptyString
  end.
Definition key_of_frame (d f n : option string) : string :=
  match d, f with
  | Some d, Some f => (d ++ "|" ++ f ++ "|")%string
  | _, _ => "||"%string
  end.

(** A first turn whose probe answer names RISK and carries no token
    log-probabilities; the main call answers. *)
Definition risk_probe_without_logprobs : TurnInput :=
  mkInput (Some ("DIM: RISK"%string, [])) None None "f_1"%string
          (Some "Noted."%string).

(** A two-note bank and an incoming note that repeats the second key. *)
Definition note_risk : MemoryFragment :=
  mkFrag "f_1_a1b2c3" "RISK|data loss|" 1 (Some "RISK"%string)
         (Some "data loss"%string) "(RISK) data loss" 0.5 (-999).
Definition note_goal : MemoryFragment :=
  mkFrag "f_2_d4e5f6" "GOAL|ship v2|" 2 (Some "GOAL"%string)
         (Some "ship v2"%string) "(GOAL) ship v2" 0.3 (-999).
Definition incoming_goal : IncomingFragment :=
  mkIncoming "GOAL|ship v2|" 3 (Some "GOAL"%string) (Some "Ship v2"%string)
             "(GOAL) Ship v2" 0.7.

(** *** Entropy, specification side *)

(** The top-k alternatives a token carries (none when the field is absent). *)
Definition alternatives (t : TokenLogprob) : list TopTokenLogprob :=
  match top_logprobs t with
  | Some top => top
  | None => []
  end.

Definition carries_alternatives (t : TokenLogprob) : bool :=
  match alternatives t with
  | [] => false
  | _ => true
  end.

(** [H = - sum p_i ln p_i - r ln r], as the specification words it. *)
Definition entropy_formula (top : list TopTokenLogprob) : R :=
  let ps := map (fun x => exp (top_logprob x)) top in
  let r := Rmax 0 (1 - sum ps) in
  - sum (map (fun p => p * ln p) ps) - r * ln r.

(** The same with [EPS] added inside each logarithm. *)
Definition entropy_formula_eps (top : list TopTokenLogprob) : R :=
  let ps := map (fun x => exp (top_logprob x)) top in
  let r := Rmax 0 (1 - sum ps) in
  - sum (map (fun p => p * ln (p + EPS)) ps) - r * ln (r + EPS).

(** The average of [H] over the tokens that carry alternatives. *)
Definition average_entropy (H : list TopTokenLogprob -> R)
    (tokens : list TokenLogprob) : option R :=
  match filter carries_alternatives tokens with
  | [] => None
  | cs => Some (sum (map (fun t => H (alternatives t)) cs) / INR (length cs))
  end.

(** One token whose single alternative has probability 1. *)
Definition certain_token : list TokenLogprob :=
  [mkTok "DIM" 0 (Some [mkTop "DIM" 0])].

(** Twelve buffered GOAL frames, no META among them. *)
Definition goal_loop_gate : GateState :=
  {| S_stats := mkStats 2 1;
     H_stats := mkStats 1 1;
     last_state := 0.3;
     meta_cap_stage := Stage0;
     meta_cap_last_change_turn := -999;
     last_dims := repeat "GOAL"%string 12;
     last_focus := repeat "release plan"%string 12;
     last_states := repeat 0.3 12;
     last_pulse_turn := -999 |}.

(** A faint note from turn 1. *)
Definition note_faint : MemoryFragment :=
  mkFrag "f_1_0f0f0f" "META|tone|" 1 (Some "META"%string)
         (Some "tone"%string) "(META) tone" 0.01 (-999).

(** The trigger conditions of the exploration pulse read as a list, with
    the buffered turns counted on the state buffer (the one buffer that
    gains an entry on every answered turn) and without regard to whether
    the probe call of the turn answered. *)
Definition pulse_conditions_as_listed (g : GateState) (t : Z) : Prop :=
  (8 <= length (last_states g))%nat /\
  sample_variance (lastn 8 (last_states g)) < 0.002 /\
  at_most_distinct 1 (lastn 8 (last_dims g)) /\
  at_most_distinct 2 (lastn 8 (last_focus g)) /\
  (t - last_pulse_turn g >= 6)%Z /\
  Forall (fun d => d <> "RISK"%string) (lastn 8 (last_dims g)) /\
  last_state g < 0.6.

(** Eight turns of one GOAL frame, one of which carried no focus: eight
    buffered states and labels, seven buffered focus strings. *)
Definition short_focus_session : Session :=
  mkSession
    {| S_stats := mkStats 2 1;
       H_stats := mkStats 1 1;
       last_state := 0.3;
       meta_cap_stage := Stage0;
       meta_cap_last_change_turn := -999;
       last_dims := repeat "GOAL"%string 8;
       last_focus := repeat "release plan"%string 7;
       last_states := repeat 0.3 8;
       last_pulse_turn := -999 |}
    [] [] 8.

(** A turn whose probe call throws. *)
Definition failed_probe : TurnInput :=
  mkInput None None None "f_0"%string None.

(** ** Further specification-side definitions *)

From Stdlib Require Import Permutation.

(** The state after a run of turns with the given weighted raw values. *)
Definition hysteresis_run (prev : R) (raws : list R) : R :=
  fold_left (fun p raw => hysteresisUpdate p raw 0.62 0.48 0.6) raws prev.

(** The token that ends a slice, if any. *)
Definition last_token (out : list TokenLogprob) : option TokenLogprob :=
  nth_error out (length out - 1).

(** The bounds of the data model on the gate state and the attention log. *)
Definition session_bounds (s : Session) : Prop :=
  0 <= last_state (gate s) <= 1 /\
  Forall (fun x => 0 <= x <= 1) (last_states (gate s)) /\
  (length (last_dims (gate s)) <= 12)%nat /\
  (length (last_focus (gate s)) <= 12)%nat /\
  (length (last_states (gate s)) <= 12)%nat /\
  (length (attn_log s) <= 30)%nat.

(** The bounds of the data model on the fragment bank: one fragment per
    key, saliences in [0, 1.2], at most 40 fragments. *)
Definition bank_ok (frags : list MemoryFragment) : Prop :=
  NoDup (map f_key frags) /\
  Forall (fun f => 0 <= f_salience f <= 1.2) frags /\
  (length frags <= 40)%nat.

(** [frags.find((f) => f.key === key)] *)
Definition find_key (key : string) (frags : list MemoryFragment)
  : option MemoryFragment :=
  find (fun f => String.eqb (f_key f) key) frags.

(** A session whose pulse was triggered on its latest turn (turn 8). *)
Definition pulsed_session : Session :=
  mkSession (set_last_pulse_turn (gate stagnant_session) 8) [] [] 8.

(** A note more salient than 0.9. *)
Definition note_vivid : MemoryFragment :=
  mkFrag "f_4_abcdef" "RISK|outage|" 4 (Some "RISK"%string)
         (Some "outage"%string) "(RISK) outage" 0.95 (-999).

(** * Properties *)

(** ** Facts about the numeric helpers *)

Lemma ltb_true a b : ltb a b = true <-> a < b.
Proof. unfold ltb; destruct (Rlt_dec a b); split; intros; try easy. Qed.

Lemma ltb_false a b : ltb a b = false <-> b <= a.
Proof.
  unfold ltb; destruct (Rlt_dec a b); split; intros; try easy; lra.
Qed.

Lemma leb_true a b : leb a b = true <-> a <= b.
Proof. unfold leb; destruct (Rle_dec a b); split; intros; try easy. Qed.

Lemma leb_false a b : leb a b = false <-> b < a.
Proof.
  unfold leb; destruct (Rle_dec a b); split; intros; try easy; lra.
Qed.

Lemma clamp_range a b x : a <= b -> a <= clamp a b x <= b.
Proof.
  intros Hab; unfold clamp, Rmax, Rmin.
  repeat destruct (Rle_dec _ _); lra.
Qed.

Lemma clamp_id a b x : a <= x <= b -> clamp a b x = x.
Proof.
  intros Hx; unfold clamp, Rmax, Rmin.
  repeat destruct (Rle_dec _ _); lra.
Qed.

Lemma clamp_mono a b x y : x <= y -> clamp a b x <= clamp a b y.
Proof.
  intros Hxy; unfold clamp, Rmax, Rmin.
  repeat destruct (Rle_dec _ _); lra.
Qed.

Lemma clamp01_range x : 0 <= clamp01 x <= 1.
Proof. apply clamp_range; lra. Qed.

Lemma clamp01_id x : 0 <= x <= 1 -> clamp01 x = x.
Proof. apply clamp_id. Qed.

Lemma clampZ_range a b x : (a <= b)%Z -> (a <= clampZ a b x <= b)%Z.
Proof. unfold clampZ; lia. Qed.

Lemma clampZ_mono a b x y : (x <= y)%Z -> (clampZ a b x <= clampZ a b y)%Z.
Proof. unfold clampZ; lia. Qed.

Lemma round_mono x y : x <= y -> (round x <= round y)%Z.
Proof. intros H; apply Zfloor_le; lra. Qed.

Lemma round_IZR z : round (IZR z) = z.
Proof. apply Zfloor_eq; lra. Qed.

Lemma round_range (a b : Z) x :
  IZR a <= x <= IZR b -> (a <= round x <= b)%Z.
Proof.
  intros [Ha Hb]; split.
  - rewrite <- (round_IZR a); now apply round_mono.
  - rewrite <- (round_IZR b); now apply round_mono.
Qed.

Lemma sum_from (xs : list R) (a : R) : fold_left Rplus xs a = a + sum xs.
Proof.
  unfold sum; revert a; induction xs as [|x xs IH]; intros a; simpl.
  - lra.
  - rewrite IH, (IH (0 + x)); lra.
Qed.

Lemma sum_cons x xs : sum (x :: xs) = x + sum xs.
Proof. unfold sum at 1; simpl; rewrite sum_from; lra. Qed.

Lemma sum_app xs ys : sum (xs ++ ys) = sum xs + sum ys.
Proof.
  induction xs as [|x xs IH]; simpl.
  - unfold sum at 2; simpl; lra.
  - rewrite !sum_cons, IH; lra.
Qed.

(** ** Hysteresis *)

Lemma hysteresisUpdate_range prev raw up down inertia :
  0 <= hysteresisUpdate prev raw up down inertia <= 1.
Proof. unfold hysteresisUpdate; apply clamp01_range. Qed.

Lemma hysteresisUpdate_inside prev raw :
  0.48 < raw < 0.62 ->
  hysteresisUpdate prev raw 0.62 0.48 0.6 = clamp01 (0.6 * prev + 0.4 * prev).
Proof.
  intros [Hd Hu]; unfold hysteresisUpdate.
  assert (E1 : leb 0.62 raw = false) by (apply leb_false; lra).
  assert (E2 : leb raw 0.48 = false) by (apply leb_false; lra).
  rewrite E1, E2; simpl; f_equal; lra.
Qed.

Lemma hysteresisUpdate_outside prev raw :
  raw <= 0.48 \/ 0.62 <= raw ->
  hysteresisUpdate prev raw 0.62 0.48 0.6 = clamp01 (0.6 * prev + 0.4 * raw).
Proof.
  intros H; unfold hysteresisUpdate.
  assert (E : leb 0.62 raw || leb raw 0.48 = true).
  { apply orb_true_iff; destruct H as [H|H]; [right|left]; now apply leb_true. }
  rewrite E; f_equal; lra.
Qed.

(** C2, as stated, fails at a band end: with [prev = 0] and [raw = 0.48]
    the code moves toward [raw] and returns [0.192], while the update with
    the closed band keeps [prev] and gives [0]. *)
Lemma C2_closed_band_counterexample :
  0 <= 0 <= 1 /\
  hysteresisUpdate 0 0.48 0.62 0.48 0.6 = 0.192 /\
  hysteresis_closed_band 0 0.48 = 0 /\
  hysteresisUpdate 0 0.48 0.62 0.48 0.6 <> hysteresis_closed_band 0 0.48.
Proof.
  assert (A : hysteresisUpdate 0 0.48 0.62 0.48 0.6 = 0.192).
  { rewrite hysteresisUpdate_outside by lra.
    rewrite clamp01_id by lra; lra. }
  assert (B : hysteresis_closed_band 0 0.48 = 0).
  { unfold hysteresis_closed_band.
    assert (E1 : leb 0.48 0.48 = true) by (apply leb_true; lra).
    assert (E2 : leb 0.48 0.62 = true) by (apply leb_true; lra).
    rewrite E1, E2; simpl; rewrite clamp01_id by lra; lra. }
  split; [lra|]; split; [exact A|]; split; [exact B|].
  rewrite A, B; lra.
Qed.

(** C2 (amended): for every previous state and every weighted raw value the
    hysteresis update returns the clamp to [0,1] of
    [0.6 * prev + 0.4 * target], where [target = prev] when [raw] lies
    strictly inside the band, [0.48 < raw < 0.62], and [target = raw] when
    [raw <= 0.48] or [raw >= 0.62]; the result never leaves [0,1], and for
    [prev] in [0,1] a raw value strictly inside the band leaves the state
    at [prev]. *)
Theorem C2_hysteresis_open_band (prev raw : R) :
  (0.48 < raw < 0.62 ->
     hysteresisUpdate prev raw 0.62 0.48 0.6
       = clamp01 (0.6 * prev + 0.4 * prev)) /\
  (raw <= 0.48 \/ 0.62 <= raw ->
     hysteresisUpdate prev raw 0.62 0.48 0.6
       = clamp01 (0.6 * prev + 0.4 * raw)) /\
  (0 <= prev <= 1 -> 0.48 < raw < 0.62 ->
     hysteresisUpdate prev raw 0.62 0.48 0.6 = prev) /\
  0 <= hysteresisUpdate prev raw 0.62 0.48 0.6 <= 1.
Proof.
  repeat split.
  - apply hysteresisUpdate_inside.
  - apply hysteresisUpdate_outside.
  - intros Hp Hr; rewrite hysteresisUpdate_inside by assumption.
    rewrite clamp01_id by lra; lra.
  - apply hysteresisUpdate_range.
  - apply hysteresisUpdate_range.
Qed.

(** C2 at [prev = 0.3]: a raw value inside the band keeps the state, one
    above the band pulls it up. *)
Lemma C2_hysteresis_open_band_witness :
  hysteresisUpdate 0.3 0.5 0.62 0.48 0.6 = clamp01 (0.6 * 0.3 + 0.4 * 0.3) /\
  hysteresisUpdate 0.3 0.7 0.62 0.48 0.6 = clamp01 (0.6 * 0.3 + 0.4 * 0.7) /\
  hysteresisUpdate 0.3 0.5 0.62 0.48 0.6 = 0.3.
Proof.
  split; [|split].
  - apply (proj1 (C2_hysteresis_open_band 0.3 0.5)); lra.
  - apply (proj1 (proj2 (C2_hysteresis_open_band 0.3 0.7))); right; lra.
  - apply (proj1 (proj2 (proj2 (C2_hysteresis_open_band 0.3 0.5)))); lra.
Defined.

(** ** Fragment memory *)

Lemma In_firstn {A} (n : nat) (l : list A) (x : A) :
  In x (firstn n l) -> In x l.
Proof.
  intros H; rewrite <- (firstn_skipn n l); apply in_or_app; now left.
Qed.

Lemma insert_by_salience_In a xs f :
  In f (insert_by_salience a xs) <-> f = a \/ In f xs.
Proof.
  induction xs as [|b xs IH]; simpl.
  - intuition.
  - destruct (ltb _ _); simpl; [rewrite IH|]; intuition.
Qed.

Lemma insert_by_salience_length a xs :
  length (insert_by_salience a xs) = S (length xs).
Proof.
  induction xs as [|b xs IH]; simpl; [reflexivity|].
  destruct (ltb _ _); simpl; [now rewrite IH | reflexivity].
Qed.

Lemma sort_by_salience_In xs f : In f (sort_by_salience xs) <-> In f xs.
Proof.
  induction xs as [|a xs IH]; simpl; [tauto|].
  rewrite insert_by_salience_In, IH; intuition.
Qed.

Lemma sort_by_salience_length xs : length (sort_by_salience xs) = length xs.
Proof.
  induction xs as [|a xs IH]; simpl; [reflexivity|].
  now rewrite insert_by_salience_length, IH.
Qed.

Lemma insert_by_salience_descending a xs :
  descending xs -> descending (insert_by_salience a xs).
Proof.
  unfold descending; induction xs as [|b xs IH]; intros Hs; simpl.
  - constructor; constructor.
  - inversion Hs as [|? ? Hxs Hb]; subst.
    destruct (ltb (f_salience a) (f_salience b)) eqn:E.
    + apply ltb_true in E; constructor; [now apply IH|].
      apply Forall_forall; intros f Hf.
      apply insert_by_salience_In in Hf; destruct Hf as [->|Hf]; [lra|].
      rewrite Forall_forall in Hb; now apply Hb.
    + apply ltb_false in E; constructor; [assumption|].
      constructor; [assumption|].
      rewrite Forall_forall in *; intros f Hf; specialize (Hb f Hf); lra.
Qed.

Lemma sort_by_salience_descending xs : descending (sort_by_salience xs).
Proof.
  induction xs as [|a xs IH]; simpl.
  - constructor.
  - now apply insert_by_salience_descending.
Qed.

Lemma pruneFragments_In frags turn maxKeep f :
  In f (pruneFragments frags turn maxKeep) ->
  In f frags /\ ~ (f_salience f < 0.06 /\ (turn - f_turn f > 8)%Z).
Proof.
  unfold pruneFragments; intros Hf.
  apply In_firstn, sort_by_salience_In, filter_In in Hf.
  destruct Hf as [Hin Hk]; split; [assumption|].
  intros [Hs Ha]; apply negb_true_iff, andb_false_iff in Hk.
  destruct Hk as [Hk|Hk].
  - apply ltb_false in Hk; lra.
  - apply Z.ltb_ge in Hk; lia.
Qed.

(** C8: for every fragment list and every current turn, [pruneFragments]
    with the cap 40 leaves at most 40 fragments, each of them one of the
    input fragments, and none of them has both salience below 0.06 and age
    (current turn minus fragment turn) above 8. *)
Theorem C8_prune_bounded (frags : list MemoryFragment) (turn : Z) :
  (length (pruneFragments frags turn 40) <= 40)%nat /\
  Forall (fun f => In f frags /\
                   ~ (f_salience f < 0.06 /\ (turn - f_turn f > 8)%Z))
         (pruneFragments frags turn 40).
Proof.
  split.
  - unfold pruneFragments; apply firstn_le_length.
  - apply Forall_forall; intros f Hf.
    now apply pruneFragments_In in Hf.
Qed.

(** A faint note of turn 1 is dropped at turn 20, a salient one is kept. *)
Example prune_drops_old_faint :
  pruneFragments [note_faint; note_risk] 20 40 = [note_risk].
Proof.
  unfold pruneFragments; simpl.
  assert (E1 : ltb 0.01 0.06 = true) by (apply ltb_true; lra).
  assert (E2 : ltb 0.5 0.06 = false) by (apply ltb_false; lra).
  rewrite E1, E2; reflexivity.
Qed.

Lemma merge_first_keys frags incoming :
  map f_key (merge_first frags incoming) = map f_key frags.
Proof.
  induction frags as [|f fs IH]; simpl; [reflexivity|].
  destruct (String.eqb _ _); simpl; [reflexivity | now rewrite IH].
Qed.

(** With pairwise distinct keys, [frags.find] returns the one fragment that
    carries the key, and the merge rewrites exactly that one. *)
Lemma merge_first_spec frags incoming existing :
  NoDup (map f_key frags) ->
  In existing frags -> f_key existing = i_key incoming ->
  find (fun f => String.eqb (f_key f) (i_key incoming)) frags = Some existing /\
  In (merge_into existing incoming) (merge_first frags incoming) /\
  Forall (fun g => g = merge_into existing incoming \/
                   (In g frags /\ f_key g <> i_key incoming))
         (merge_first frags incoming).
Proof.
  induction frags as [|f fs IH]; intros Hnd Hin Hk; [contradiction|].
  simpl in Hnd; inversion Hnd as [|? ? Hnotin Hnd']; subst.
  simpl; destruct (String.eqb (f_key f) (i_key incoming)) eqn:E.
  - apply String.eqb_eq in E.
    assert (f = existing) as ->.
    { destruct Hin as [Hin|Hin]; [assumption|].
      exfalso; apply Hnotin; rewrite E, <- Hk; now apply in_map. }
    split; [reflexivity|]; split; [now left|].
    constructor; [now left|].
    apply Forall_forall; intros g Hg; right; split; [now right|].
    intros Hgk; apply Hnotin; rewrite Hk, <- Hgk; now apply in_map.
  - apply String.eqb_neq in E.
    destruct Hin as [->|Hin]; [congruence|].
    destruct (IH Hnd' Hin Hk) as (Hf & Hm & Hall).
    split; [assumption|]; split; [now right|].
    constructor; [right; split; [now left | assumption]|].
    eapply Forall_impl; [|exact Hall].
    intros g [Hg|[Hg Hgk]]; [now left | right; split; [now right | assumption]].
Qed.

(** C7: for every fragment list with pairwise distinct keys and saliences
    in [0,1.2], [upsertFragment] with an incoming fragment (salience in
    [0,1.2], as the fragment type documents) whose key is already present
    merges into the existing fragment and inserts nothing: the result
    reports [merged] with the existing id, the keys of the list are
    unchanged and so still pairwise distinct, the fragment with that key
    carries the incoming text, dimension, focus and turn, and its salience
    is [clamp(0, 1.2, max(old, new) + 0.08)], which is at least the maximum
    of the existing and incoming saliences. *)
Theorem C7_upsert_merges
    (frags : list MemoryFragment) (incoming : IncomingFragment)
    (new_id : string) (existing : MemoryFragment) :
  NoDup (map f_key frags) ->
  Forall (fun f => 0 <= f_salience f <= 1.2) frags ->
  0 <= i_salience incoming <= 1.2 ->
  In existing frags ->
  f_key existing = i_key incoming ->
  let frags' := fst (upsertFragment frags incoming new_id) in
  let res := snd (upsertFragment frags incoming new_id) in
  merged res = true /\ added res = false /\ frag_id res = f_id existing /\
  map f_key frags' = map f_key frags /\
  NoDup (map f_key frags') /\
  length frags' = length frags /\
  (exists m, In m frags' /\
     f_key m = i_key incoming /\ f_id m = f_id existing /\
     f_text m = i_text incoming /\ f_dim m = i_dim incoming /\
     f_focus m = i_focus incoming /\ f_turn m = i_turn incoming /\
     f_salience m
       = clamp 0 1.2 (Rmax (f_salience existing) (i_salience incoming) + 0.08) /\
     Rmax (f_salience existing) (i_salience incoming) <= f_salience m /\
     f_salience m <= 1.2 /\
     Forall (fun g => g = m \/ (In g frags /\ f_key g <> i_key incoming))
            frags').
Proof.
  intros Hnd Hsal Hinc Hin Hk frags' res.
  destruct (merge_first_spec frags incoming existing Hnd Hin Hk)
    as (Hfind & Hm & Hall).
  unfold frags', res, upsertFragment; rewrite Hfind; simpl.
  assert (Hkeys : map f_key (merge_first frags incoming) = map f_key frags)
    by apply merge_first_keys.
  repeat (split; [reflexivity || assumption|]).
  split; [now rewrite Hkeys|].
  split; [now rewrite <- (length_map f_key), Hkeys, length_map|].
  exists (merge_into existing incoming); simpl.
  rewrite Forall_forall in Hsal; specialize (Hsal existing Hin).
  assert (Hmax : 0 <= Rmax (f_salience existing) (i_salience incoming) <= 1.2).
  { unfold Rmax; destruct (Rle_dec _ _); lra. }
  repeat (split; [reflexivity || assumption|]).
  split; [|split; [|assumption]].
  - unfold clamp, Rmax, Rmin; repeat destruct (Rle_dec _ _); lra.
  - apply clamp_range; lra.
Qed.

(** ** Stagnation buffers *)

Lemma lastn_length {A} (n : nat) (xs : list A) :
  length (lastn n xs) = Nat.min n (length xs).
Proof. unfold lastn; rewrite length_skipn; lia. Qed.

Lemma lastn_short {A} (n : nat) (xs : list A) :
  (length xs <= n)%nat -> lastn n xs = xs.
Proof.
  intros H; unfold lastn.
  replace (length xs - n)%nat with 0%nat by lia; reflexivity.
Qed.

(** The shifting loop keeps the last [maxLen] elements. *)
Lemma shift_loop_lastn {A} (maxLen fuel : nat) : forall xs : list A,
  (length xs <= fuel)%nat -> shift_loop fuel maxLen xs = lastn maxLen xs.
Proof.
  induction fuel as [|fuel IH]; intros xs Hf; simpl.
  - destruct xs; [reflexivity | simpl in Hf; lia].
  - destruct (maxLen <? length xs)%nat eqn:E.
    + apply Nat.ltb_lt in E.
      destruct xs as [|x xs]; [simpl in E; lia|].
      simpl in *; rewrite IH by lia.
      unfold lastn; simpl length.
      replace (S (length xs) - maxLen)%nat with (S (length xs - maxLen)) by lia.
      reflexivity.
    + apply Nat.ltb_ge in E; symmetry; now apply lastn_short.
Qed.

Lemma shift_while_lastn {A} (maxLen : nat) (xs : list A) :
  shift_while maxLen xs = lastn maxLen xs.
Proof. unfold shift_while; now apply shift_loop_lastn. Qed.

Lemma shift_while_length {A} (maxLen : nat) (xs : list A) :
  (length (shift_while maxLen xs) <= maxLen)%nat.
Proof. rewrite shift_while_lastn, lastn_length; lia. Qed.

Lemma push_truthy_spec xs x :
  push_truthy xs x
  = match x with
    | Some v => if String.eqb v EmptyString then xs else xs ++ [v]
    | None => xs
    end.
Proof.
  unfold push_truthy, truthy; destruct x as [v|]; [|reflexivity].
  now destruct (String.eqb v EmptyString).
Qed.

(** C10: every call of [updateStagnationBuffers] (with the handler's bound
    12) leaves the three buffers with at most 12 entries; the new state is
    always appended, a dimension or focus only when it is non-null (and
    non-empty); so the buffers can differ in length and hold entries of
    different turns.  In the replay [gap_calls] of fourteen turns whose
    tenth has no dimension and no focus, the 12 buffered focus strings come
    from turns 2 to 14 and the last 8 of them from turns 6 to 14, while the
    12 buffered states come from turns 3 to 14; after ten of these turns
    the dimension buffer holds 9 entries and the state buffer 10. *)
Theorem C10_buffers_bounded_not_aligned :
  (forall gs dim focus state,
     let gs' := updateStagnationBuffers gs dim focus state 12 in
     (length (last_dims gs') <= 12)%nat /\
     (length (last_focus gs') <= 12)%nat /\
     (length (last_states gs') <= 12)%nat /\
     last_states gs' = lastn 12 (last_states gs ++ [state]) /\
     last_dims gs'
       = lastn 12 (match dim with
                   | Some d => if String.eqb d EmptyString then last_dims gs
                               else last_dims gs ++ [d]
                   | None => last_dims gs
                   end) /\
     last_focus gs'
       = lastn 12 (match focus with
                   | Some f => if String.eqb f EmptyString then last_focus gs
                               else last_focus gs ++ [f]
                   | None => last_focus gs
                   end)) /\
  (length (last_dims (replay_buffers (firstn 10 gap_calls))) = 9%nat /\
   length (last_states (replay_buffers (firstn 10 gap_calls))) = 10%nat) /\
  (last_focus (replay_buffers gap_calls)
     = ["t2"; "t3"; "t4"; "t5"; "t6"; "t7"; "t8"; "t9";
        "t11"; "t12"; "t13"; "t14"]%string /\
   lastn 8 (last_focus (replay_buffers gap_calls))
     = ["t6"; "t7"; "t8"; "t9"; "t11"; "t12"; "t13"; "t14"]%string /\
   length (last_dims (replay_buffers gap_calls)) = 12%nat /\
   last_states (replay_buffers gap_calls)
     = [0.03; 0.04; 0.05; 0.06; 0.07; 0.08; 0.09; 0.10; 0.11; 0.12; 0.13; 0.14]).
Proof.
  split; [|split].
  - intros gs dim focus state gs'; unfold gs', updateStagnationBuffers; simpl.
    rewrite <- !push_truthy_spec, <- !shift_while_lastn.
    repeat split; try apply shift_while_length.
  - split; reflexivity.
  - repeat split; reflexivity.
Qed.

(** ** Probe metrics: entropy *)

Lemma approxEntropy_loop_spec (tokens : list TokenLogprob) : forall Hs,
  approxEntropy_loop tokens Hs
  = Hs ++ map (fun t => token_entropy (alternatives t))
              (filter carries_alternatives tokens).
Proof.
  induction tokens as [|t ts IH]; intros Hs.
  - simpl; now rewrite app_nil_r.
  - cbn [approxEntropy_loop filter].
    assert (Ha : alternatives t
                 = match top_logprobs t with Some top => top | None => [] end)
      by reflexivity.
    assert (Hc : carries_alternatives t
                 = match alternatives t with [] => false | _ => true end)
      by reflexivity.
    destruct (top_logprobs t) as [[|x top]|] eqn:E;
      rewrite Hc, Ha, IH; [reflexivity | | reflexivity].
    cbn [map]; rewrite Ha, <- app_assoc; reflexivity.
Qed.

Lemma entropy_terms_spec (ps : list R) : forall H,
  Forall (fun p => 0 < p) ps ->
  entropy_terms ps H = H - sum (map (fun p => p * ln (p + EPS)) ps).
Proof.
  unfold entropy_terms; induction ps as [|p ps IH]; intros H Hpos; simpl.
  - unfold sum; simpl; lra.
  - inversion Hpos as [|? ? Hp Hps]; subst.
    apply ltb_true in Hp; rewrite Hp, IH by assumption.
    rewrite sum_cons; lra.
Qed.

Lemma token_entropy_spec (top : list TopTokenLogprob) :
  token_entropy top = entropy_formula_eps top.
Proof.
  unfold token_entropy, entropy_formula_eps.
  rewrite entropy_terms_spec.
  - set (r := Rmax 0 _).
    assert (Hr : 0 <= r) by apply Rmax_l.
    destruct (ltb 0 r) eqn:E; [lra|].
    apply ltb_false in E.
    replace r with 0 by lra; lra.
  - apply Forall_forall; intros p Hp.
    apply in_map_iff in Hp; destruct Hp as (x & <- & _); apply exp_pos.
Qed.

Lemma no_carrier_iff (tokens : list TokenLogprob) :
  filter carries_alternatives tokens = [] <->
  Forall (fun t => top_logprobs t = None \/ top_logprobs t = Some []) tokens.
Proof.
  induction tokens as [|t ts IH]; simpl.
  - split; [constructor | reflexivity].
  - unfold carries_alternatives at 1, alternatives.
    destruct (top_logprobs t) as [[|x top]|] eqn:E.
    + rewrite IH; split; [intros H; constructor; auto|].
      intros H; now inversion H.
    + split; [discriminate|].
      intros H; inversion H as [|? ? [Ht|Ht] _]; congruence.
    + rewrite IH; split; [intros H; constructor; auto|].
      intros H; now inversion H.
Qed.

Lemma approxEntropy_average (tokens : list TokenLogprob) :
  approxEntropy tokens = average_entropy entropy_formula_eps tokens.
Proof.
  unfold approxEntropy, average_entropy.
  rewrite approxEntropy_loop_spec; cbn [app].
  rewrite (map_ext _ (fun t => entropy_formula_eps (alternatives t)))
    by (intros t; apply token_entropy_spec).
  destruct (filter carries_alternatives tokens) as [|c cs]; [reflexivity|].
  now rewrite !length_map.
Qed.

(** C9, as stated, fails: for one token whose single alternative has
    log-probability 0 the formula of the claim gives [0], the code gives
    [- ln (1 + 1e-8)], which is negative. *)
Lemma C9_entropy_counterexample :
  approxEntropy certain_token = Some (- ln (1 + 1e-8)) /\
  average_entropy entropy_formula certain_token = Some 0 /\
  approxEntropy certain_token <> average_entropy entropy_formula certain_token.
Proof.
  assert (A : approxEntropy certain_token = Some (- ln (1 + 1e-8))).
  { rewrite approxEntropy_average.
    unfold average_entropy, entropy_formula_eps, certain_token; simpl.
    unfold sum, EPS; simpl; rewrite exp_0.
    replace (Rmax 0 (1 - (0 + 1))) with 0
      by (unfold Rmax; destruct (Rle_dec _ _); lra).
    f_equal; field. }
  assert (B : average_entropy entropy_formula certain_token = Some 0).
  { unfold average_entropy, entropy_formula, certain_token; simpl.
    unfold sum; simpl; rewrite exp_0, ln_1.
    replace (Rmax 0 (1 - (0 + 1))) with 0
      by (unfold Rmax; destruct (Rle_dec _ _); lra).
    f_equal; field. }
  split; [exact A|]; split; [exact B|].
  rewrite A, B; intros H; injection H as H.
  assert (0 < ln (1 + 1e-8)); [|lra].
  rewrite <- ln_1; apply ln_increasing; lra.
Qed.

(** C9 (amended): for every token slice the entropy estimator returns
    [None] exactly when no token of the slice carries top-k alternatives
    (the field is absent or empty); otherwise it returns the average, over
    the tokens that do carry alternatives, of
    [H = - sum p_i ln (p_i + 1e-8) - r ln (r + 1e-8)], where
    [p_i = exp logprob_i] and [r = max 0 (1 - sum p_i)]. *)
Theorem C9_entropy_average_with_eps (tokens : list TokenLogprob) :
  approxEntropy tokens = average_entropy entropy_formula_eps tokens /\
  (approxEntropy tokens = None <->
   Forall (fun t => top_logprobs t = None \/ top_logprobs t = Some []) tokens).
Proof.
  split; [apply approxEntropy_average|].
  rewrite approxEntropy_average, <- no_carrier_iff.
  unfold average_entropy.
  destruct (filter carries_alternatives tokens); split;
    try reflexivity; discriminate.
Qed.

(** ** Running baselines *)

(** The library function [emaUpdate] floors the variance. *)
Lemma emaUpdate_var_floor (st : RunningStats) (x eta : R) :
  EPS <= var (emaUpdate st x eta).
Proof. unfold emaUpdate; simpl; apply Rmax_r. Qed.

(** The handler's inline step does not: it stores the raw moving variance. *)
Lemma baselineStep_var (st : RunningStats) (x : R) :
  var (snd (baselineStep st x))
  = 0.94 * var st + 0.06 * (0.94 * (x - mean st)) ^ 2.
Proof. unfold baselineStep, ETA; simpl; lra. Qed.

Lemma baselineStep_at_mean (v : R) :
  snd (baselineStep (mkStats 2 v) 2) = mkStats 2 (0.94 * v).
Proof. unfold baselineStep, ETA; simpl; f_equal; lra. Qed.

Lemma gate_fields_relax (gs : GateState) (t : Z) :
  let gs' := fst (fst (maybeRelaxMetaCapStage gs t)) in
  S_stats gs' = S_stats gs /\ H_stats gs' = H_stats gs /\
  last_state gs' = last_state gs /\ last_dims gs' = last_dims gs /\
  last_focus gs' = last_focus gs /\ last_states gs' = last_states gs /\
  last_pulse_turn gs' = last_pulse_turn gs.
Proof.
  unfold maybeRelaxMetaCapStage.
  destruct (recentMetaShare gs 12); simpl; [|tauto].
  destruct (_ <? _)%Z; simpl; [tauto|].
  destruct (meta_cap_stage gs); simpl; try tauto;
    destruct (leb _ _); simpl; tauto.
Qed.

(** ** Gradient budgets *)

Lemma lerp_mono_up a b t1 t2 : a <= b -> t1 <= t2 -> lerp a b t1 <= lerp a b t2.
Proof. unfold lerp; intros; nra. Qed.

Lemma lerp_mono_down a b t1 t2 : b <= a -> t1 <= t2 -> lerp a b t2 <= lerp a b t1.
Proof. unfold lerp; intros; nra. Qed.

Lemma lerp_range_up a b t : a <= b -> 0 <= t <= 1 -> a <= lerp a b t <= b.
Proof. unfold lerp; intros; nra. Qed.

Lemma lerp_range_down a b t : b <= a -> 0 <= t <= 1 -> b <= lerp a b t <= a.
Proof. unfold lerp; intros; nra. Qed.

Lemma Math_pow_nonneg x g : 0 <= Math_pow x g.
Proof.
  unfold Math_pow; destruct (Req_dec_T x 0); [lra|].
  unfold Rpower; left; apply exp_pos.
Qed.

Lemma Math_pow_le_1 x g : 0 <= x <= 1 -> 0 <= g -> Math_pow x g <= 1.
Proof.
  intros [H0 H1] Hg; unfold Math_pow; destruct (Req_dec_T x 0); [lra|].
  assert (Hx : 0 < x) by lra.
  apply Rle_trans with (Rpower 1 g); [apply Rle_Rpower_l; lra|].
  unfold Rpower; rewrite ln_1, Rmult_0_r, exp_0; lra.
Qed.

Lemma Math_pow_mono x y g :
  0 <= x <= y -> 0 <= g -> Math_pow x g <= Math_pow y g.
Proof.
  intros [H0 Hxy] Hg; unfold Math_pow at 1.
  destruct (Req_dec_T x 0); [apply Math_pow_nonneg|].
  unfold Math_pow; destruct (Req_dec_T y 0); [lra|].
  apply Rle_Rpower_l; lra.
Qed.

Lemma powEase_range x g : 0 <= g -> 0 <= powEase x g <= 1.
Proof.
  intros Hg; unfold powEase; split.
  - apply Math_pow_nonneg.
  - apply Math_pow_le_1; [apply clamp01_range | assumption].
Qed.

Lemma powEase_mono x y g : 0 <= g -> x <= y -> powEase x g <= powEase y g.
Proof.
  intros Hg Hxy; unfold powEase; apply Math_pow_mono; [|assumption].
  split; [apply clamp01_range | now apply clamp_mono].
Qed.

Lemma hermite_range t : 0 <= t <= 1 -> 0 <= t * t * (3 - 2 * t) <= 1.
Proof.
  intros [H0 H1]; split; [nra|].
  assert (0 <= (1 - t) * (1 - t) * (1 + 2 * t)) by
    (apply Rmult_le_pos; [nra | lra]).
  nra.
Qed.

Lemma hermite_mono a b :
  0 <= a -> a <= b -> b <= 1 ->
  a * a * (3 - 2 * a) <= b * b * (3 - 2 * b).
Proof.
  intros H0 Hab H1.
  assert (0 <= (b - a) * (a * (3 - 2 * a - b) + b * (3 - 2 * b - a))).
  { apply Rmult_le_pos; [lra|].
    apply Rplus_le_le_0_compat; apply Rmult_le_pos; lra. }
  nra.
Qed.

Lemma smoothstep_range e0 e1 x : 0 <= smoothstep e0 e1 x <= 1.
Proof. unfold smoothstep; apply hermite_range, clamp01_range. Qed.

Lemma smoothstep_mono e0 e1 x y :
  e0 < e1 -> x <= y -> smoothstep e0 e1 x <= smoothstep e0 e1 y.
Proof.
  intros He Hxy; unfold smoothstep.
  set (tx := clamp01 _); set (ty := clamp01 _).
  assert (Hx : 0 <= tx <= 1) by apply clamp01_range.
  assert (Hy : 0 <= ty <= 1) by apply clamp01_range.
  assert (Ht : tx <= ty).
  { apply clamp_mono; unfold Rdiv; apply Rmult_le_compat_r; [|lra].
    left; apply Rinv_0_lt_compat; lra. }
  apply hermite_mono; lra.
Qed.

(** ** Stagnation detection *)

Lemma fold_left_add_sum (f : R -> R) (xs : list R) (a : R) :
  fold_left (fun acc x => acc + f x) xs a = a + sum (map f xs).
Proof.
  revert a; induction xs as [|x xs IH]; intros a; simpl.
  - unfold sum; simpl; lra.
  - rewrite IH, sum_cons; lra.
Qed.

Lemma variance_sample (xs : list R) :
  (2 <= length xs)%nat -> variance xs = sample_variance xs.
Proof.
  intros Hn; unfold variance, sample_variance.
  destruct (length xs <=? 1)%nat eqn:E; [apply Nat.leb_le in E; lia|].
  rewrite fold_left_add_sum, Rplus_0_l, minus_INR by lia.
  reflexivity.
Qed.

Lemma lowDiversity_spec (xs : list string) (n : nat) :
  lowDiversity xs n = true <-> at_most_distinct n xs.
Proof.
  unfold lowDiversity, set_size, at_most_distinct; rewrite Nat.leb_le; split.
  - intros H; exists (nodup string_dec xs); split; [assumption|].
    intros x Hx; now apply nodup_In.
  - intros (vals & Hl & Hincl).
    etransitivity; [|exact Hl].
    apply NoDup_incl_length; [apply NoDup_nodup|].
    intros x Hx; apply Hincl; now apply nodup_In in Hx.
Qed.

Lemma shouldExplorationPulse_spec (gs : GateState) :
  shouldExplorationPulse gs = true <->
  ((8 <= length (last_states gs))%nat /\
   (8 <= length (last_dims gs))%nat /\
   (8 <= length (last_focus gs))%nat) /\
  sample_variance (lastn 8 (last_states gs)) < 0.002 /\
  at_most_distinct 1 (lastn 8 (last_dims gs)) /\
  at_most_distinct 2 (lastn 8 (last_focus gs)).
Proof.
  unfold shouldExplorationPulse.
  destruct (length (last_states gs) <? 8)%nat eqn:E1;
    [apply Nat.ltb_lt in E1; split; [discriminate | lia]|].
  destruct (length (last_dims gs) <? 8)%nat eqn:E2;
    [apply Nat.ltb_lt in E2; split; [discriminate | lia]|].
  destruct (length (last_focus gs) <? 8)%nat eqn:E3;
    [apply Nat.ltb_lt in E3; split; [discriminate | lia]|].
  apply Nat.ltb_ge in E1, E2, E3.
  rewrite !andb_true_iff, ltb_true, !lowDiversity_spec.
  rewrite variance_sample by (rewrite lastn_length; lia).
  tauto.
Qed.

Lemma dim_is_false (d : option string) (name : string) :
  dim_is d name = false <-> d <> Some name.
Proof.
  unfold dim_is; destruct d as [v|]; [|split; [discriminate | reflexivity]].
  rewrite String.eqb_neq; split; congruence.
Qed.

Lemma pulseGuard_spec (gs : GateState) (t : Z) :
  pulseGuard gs t = true <->
  shouldExplorationPulse gs = true /\
  (t - last_pulse_turn gs >= 6)%Z /\
  repeatingDim gs <> Some "RISK"%string /\
  last_state gs < 0.6.
Proof.
  unfold pulseGuard.
  rewrite !andb_true_iff, negb_true_iff, dim_is_false, ltb_true, Z.leb_le.
  intuition lia.
Qed.

(** ** META cap governor *)

Lemma relaxes_le a b : relaxes a b -> (stage_num a <= stage_num b)%nat.
Proof. intros [->|[[-> ->]|[-> ->]]]; simpl; lia. Qed.

Lemma maybeRelaxMetaCapStage_relaxes (gs : GateState) (t : Z) :
  relaxes (meta_cap_stage gs)
          (meta_cap_stage (fst (fst (maybeRelaxMetaCapStage gs t)))).
Proof.
  unfold maybeRelaxMetaCapStage, relaxes.
  destruct (recentMetaShare gs 12); simpl; [|now left].
  destruct (_ <? _)%Z; simpl; [now left|].
  destruct (meta_cap_stage gs) eqn:E; simpl.
  - destruct (leb _ _); simpl; [right; left; auto | now left].
  - destruct (leb _ _); simpl; [right; right; auto | now left].
  - now left.
Qed.

(** The governor does move: with no META among the last 12 labels the
    stage goes from 0 to 1, and 18 turns later from 1 to 2. *)
Example relax_stage0_to_stage1 :
  meta_cap_stage (fst (fst (maybeRelaxMetaCapStage goal_loop_gate 12))) = Stage1 /\
  meta_cap_stage
    (fst (fst (maybeRelaxMetaCapStage (set_stage goal_loop_gate Stage1 12) 30)))
  = Stage2.
Proof.
  split; unfold maybeRelaxMetaCapStage, recentMetaShare; simpl;
    (destruct (leb _ _) eqn:E;
     [reflexivity | apply leb_false in E; simpl in E; lra]).
Qed.

Section HandlerFacts.

Variable parseProbeFields : string -> Fields.
Variable parseCandidates : string -> list ProbeFields.
Variable parsePick : string -> option Z.
Variable fragmentText : option string -> option string -> option string -> string.
Variable makeFragmentKey : option string -> option string -> option string -> string.

Let post := POST parseProbeFields parseCandidates parsePick fragmentText
                 makeFragmentKey.
Let run' := run parseProbeFields parseCandidates parsePick fragmentText
                makeFragmentKey.

Lemma POST_S_stats sess inp text lp :
  probe inp = Some (text, lp) ->
  S_stats (gate (fst (post sess inp)))
  = snd (baselinePhase (S_stats (gate sess))
                       (meanSurprisal (sliceFirstLine lp 30))).
Proof.
  intros Hp; unfold post, POST; rewrite Hp.
  destruct (baselinePhase (S_stats (gate sess)) _) as [zS stS] eqn:ES.
  destruct (baselinePhase (H_stats (gate sess)) _) as [zH stH] eqn:EH.
  destruct (scorePhase _ zS zH) as [score rawS] eqn:Esc.
  match goal with
  | |- context [maybeRelaxMetaCapStage ?g ?t] =>
      pose proof (gate_fields_relax g t) as Hr;
      destruct (maybeRelaxMetaCapStage g t) as [[g5 ch] sh] eqn:Er
  end.
  simpl in Hr; destruct Hr as [HS _]; simpl; rewrite HS.
  simpl. destruct (if pulseGuard _ _ then _ else _); reflexivity.
Qed.

Lemma POST_stage_relaxes sess inp :
  relaxes (meta_cap_stage (gate sess))
          (meta_cap_stage (gate (fst (post sess inp)))).
Proof.
  unfold post, POST.
  destruct (probe inp) as [[text lp]|]; [|now left].
  destruct (baselinePhase (S_stats (gate sess)) _) as [zS stS] eqn:ES.
  destruct (baselinePhase (H_stats (gate sess)) _) as [zH stH] eqn:EH.
  destruct (scorePhase _ zS zH) as [score rawS] eqn:Esc.
  match goal with
  | |- context [maybeRelaxMetaCapStage ?g ?t] =>
      pose proof (maybeRelaxMetaCapStage_relaxes g t) as Hr;
      destruct (maybeRelaxMetaCapStage g t) as [[g5 ch] sh] eqn:Er
  end.
  simpl in *.
  destruct (if pulseGuard _ _ then _ else _); exact Hr.
Qed.

Lemma run_app sess inps1 inps2 :
  run' sess (inps1 ++ inps2) = run' (run' sess inps1) inps2.
Proof.
  unfold run'; revert sess; induction inps1 as [|i rest IH]; intros sess; simpl.
  - reflexivity.
  - apply IH.
Qed.

Lemma run_stage_le inps : forall sess,
  (stage_num (meta_cap_stage (gate sess))
   <= stage_num (meta_cap_stage (gate (run' sess inps))))%nat.
Proof.
  unfold run'; induction inps as [|i rest IH]; intros sess; simpl.
  - lia.
  - etransitivity; [|apply IH].
    apply relaxes_le, POST_stage_relaxes.
Qed.

(** C5: over every sequence of turns of a session [meta_cap_stage] never
    decreases (the stage after any further turns is at least the stage
    before them); a single turn leaves the stage unchanged or moves it
    from 0 to 1 or from 1 to 2; and the META cap of stages 0, 1, 2 is
    0.55, 0.65 and no cap. *)
Theorem C5_meta_cap_stage_monotone :
  (forall sess inps1 inps2,
     (stage_num (meta_cap_stage (gate (run' sess inps1)))
      <= stage_num (meta_cap_stage (gate (run' sess (inps1 ++ inps2)))))%nat) /\
  (forall sess inp,
     let a := meta_cap_stage (gate sess) in
     let b := meta_cap_stage (gate (fst (post sess inp))) in
     b = a \/ (a = Stage0 /\ b = Stage1) \/ (a = Stage1 /\ b = Stage2)) /\
  metaCapValue Stage0 = Some 0.55 /\
  metaCapValue Stage1 = Some 0.65 /\
  metaCapValue Stage2 = None.
Proof.
  split; [|split; [|repeat split]].
  - intros sess inps1 inps2; rewrite run_app; apply run_stage_le.
  - intros sess inp; apply POST_stage_relaxes.
Qed.

Lemma POST_requested sess inp :
  candidates_requested (snd (post sess inp))
  = match probe inp with
    | Some _ => pulseGuard (gate sess) (turn sess + 1)
    | None => false
    end.
Proof.
  unfold post, POST; destruct (probe inp) as [[text lp]|]; [|reflexivity].
  destruct (baselinePhase (S_stats (gate sess)) _) as [zS stS] eqn:ES.
  destruct (baselinePhase (H_stats (gate sess)) _) as [zH stH] eqn:EH.
  destruct (scorePhase _ zS zH) as [score rawS] eqn:Esc.
  match goal with
  | |- context [maybeRelaxMetaCapStage ?g ?t] =>
      destruct (maybeRelaxMetaCapStage g t) as [[g5 ch] sh] eqn:Er
  end.
  reflexivity.
Qed.

(** When the guard fails the exploration and verification answers are
    never read: the turn is the same whatever the service would have said. *)
Lemma POST_without_attempt sess inp text lp e v :
  probe inp = Some (text, lp) ->
  pulseGuard (gate sess) (turn sess + 1) = false ->
  post sess inp
  = post sess (mkInput (probe inp) e v (new_fragment_id inp) (main inp)).
Proof.
  intros Hp Hg; unfold post, POST; simpl; rewrite Hp.
  destruct (baselinePhase (S_stats (gate sess)) _) as [zS stS] eqn:ES.
  destruct (baselinePhase (H_stats (gate sess)) _) as [zH stH] eqn:EH.
  destruct (scorePhase _ zS zH) as [score rawS] eqn:Esc.
  change (pulseGuard (set_baselines (gate sess) stS stH) (turn sess + 1))
    with (pulseGuard (gate sess) (turn sess + 1)).
  rewrite Hg; reflexivity.
Qed.

Lemma at_most_one_distinct {A} (xs : list A) (a b : A) :
  at_most_distinct 1 xs -> In a xs -> In b xs -> a = b.
Proof.
  intros (vals & Hl & Hincl) Ha Hb.
  apply Hincl in Ha; apply Hincl in Hb.
  destruct vals as [|v [|w vals]]; simpl in *; [contradiction | | lia].
  destruct Ha as [<-|[]]; destruct Hb as [<-|[]]; reflexivity.
Qed.

Lemma newest_in_lastn {A} (n : nat) (xs : list A) (d : A) :
  (1 <= n)%nat -> nth_error xs (length xs - 1) = Some d -> In d (lastn n xs).
Proof.
  intros Hn Hd; unfold lastn.
  assert (Hlen : (length xs - 1 < length xs)%nat)
    by (apply nth_error_Some; congruence).
  rewrite <- (firstn_skipn (length xs - n) xs) in Hd at 1.
  rewrite nth_error_app2 in Hd by (rewrite length_firstn; lia).
  now apply nth_error_In in Hd.
Qed.

(** The label the handler calls the repeating dimension is the newest
    buffered one; when the last 8 labels take one value it is that value. *)
Lemma repeatingDim_of_flat_labels (gs : GateState) :
  (8 <= length (last_dims gs))%nat ->
  at_most_distinct 1 (lastn 8 (last_dims gs)) ->
  (repeatingDim gs <> Some "RISK"%string <->
   Forall (fun d => d <> "RISK"%string) (lastn 8 (last_dims gs))).
Proof.
  intros Hlen Hflat; unfold repeatingDim.
  destruct (nth_error (last_dims gs) (length (last_dims gs) - 1)) as [d|] eqn:Ed.
  2:{ apply nth_error_None in Ed; lia. }
  assert (Hin : In d (lastn 8 (last_dims gs))) by (apply newest_in_lastn; [lia | exact Ed]).
  split.
  - intros Hd; apply Forall_forall; intros x Hx.
    rewrite (at_most_one_distinct _ x d Hflat Hx Hin); congruence.
  - intros Hall; rewrite Forall_forall in Hall.
    specialize (Hall d Hin); congruence.
Qed.

(** C6 (amended): on any turn, the request for alternative probe
    candidates is made if and only if the probe call of the turn answered
    and each of the three stagnation buffers (states, dimension labels,
    focus strings) holds at least 8 entries, the sample variance of the
    last 8 buffered states is below 0.002, the last 8 buffered dimension
    labels take at most 1 distinct value, the last 8 buffered focus
    strings take at most 2 distinct values, the current turn is at least
    6 past the last pulse, none of the last 8 buffered dimension labels
    (the repeating dimension) is RISK, and the previous state is below
    0.6. *)
Theorem C6_pulse_attempt_iff sess inp :
  let g := gate sess in
  candidates_requested (snd (post sess inp)) = true <->
  probe inp <> None /\
  ((8 <= length (last_states g))%nat /\
   (8 <= length (last_dims g))%nat /\
   (8 <= length (last_focus g))%nat) /\
  sample_variance (lastn 8 (last_states g)) < 0.002 /\
  at_most_distinct 1 (lastn 8 (last_dims g)) /\
  at_most_distinct 2 (lastn 8 (last_focus g)) /\
  (turn sess + 1 - last_pulse_turn g >= 6)%Z /\
  Forall (fun d => d <> "RISK"%string) (lastn 8 (last_dims g)) /\
  last_state g < 0.6.
Proof.
  intros g; rewrite POST_requested; fold g.
  destruct (probe inp) as [p|].
  - rewrite pulseGuard_spec, shouldExplorationPulse_spec; split.
    + intros ((Hlen & Hv & Hd & Hf) & Ht & Hr & Hs).
      apply repeatingDim_of_flat_labels in Hr; [|tauto | exact Hd].
      split; [discriminate | tauto].
    + intros (_ & Hlen & Hv & Hd & Hf & Ht & Hr & Hs).
      apply repeatingDim_of_flat_labels in Hr; [|tauto | exact Hd].
      tauto.
  - split; [discriminate | intros [H _]; now contradiction H].
Qed.

(** The state of a first turn without log-probabilities: the score is
    skipped, the previous state [0.3] stands in for the raw state, and
    the dimension weight and the hysteresis are applied to it. *)
Lemma POST_first_turn_state inp text reply :
  probe inp = Some (text, []) ->
  main inp = Some reply ->
  option_map d_state (response (snd (post getSession_new inp)))
  = Some (hysteresisUpdate 0.3
            (fst (applyDimWeight 0.3 (dim (parseProbeFields text))
                                 createInitialGateState))
            0.62 0.48 0.6).
Proof.
  intros Hp Hm; unfold post, POST; rewrite Hp, Hm; simpl.
  match goal with
  | |- context [maybeRelaxMetaCapStage ?g ?t] =>
      destruct (maybeRelaxMetaCapStage g t) as [[g5 ch] sh] eqn:Er
  end.
  reflexivity.
Qed.

Lemma applyDimWeight_initial_not_risk d :
  d <> Some "RISK"%string ->
  fst (applyDimWeight 0.3 d createInitialGateState) = 0.3.
Proof.
  intros Hd; apply dim_is_false in Hd.
  unfold applyDimWeight; rewrite Hd.
  destruct (dim_is d "META"); simpl; [|reflexivity].
  unfold Rmin; destruct (Rle_dec _ _); lra.
Qed.

Lemma applyDimWeight_initial_risk :
  fst (applyDimWeight 0.3 (Some "RISK"%string) createInitialGateState) = 0.478.
Proof.
  unfold applyDimWeight; simpl.
  rewrite (clamp01_id 0.3) by lra.
  unfold lerp; rewrite clamp01_id; lra.
Qed.

(** Apart from RISK, every parsed dimension (also none) leaves the first
    state at the default. *)
Lemma first_turn_keeps_default inp text reply :
  probe inp = Some (text, []) ->
  main inp = Some reply ->
  dim (parseProbeFields text) <> Some "RISK"%string ->
  option_map d_state (response (snd (post getSession_new inp))) = Some 0.3.
Proof.
  intros Hp Hm Hd; rewrite (POST_first_turn_state inp text reply Hp Hm).
  rewrite applyDimWeight_initial_not_risk by assumption.
  rewrite hysteresisUpdate_outside by lra.
  rewrite clamp01_id by lra; f_equal; lra.
Qed.

Lemma first_turn_risk_state inp text reply :
  probe inp = Some (text, []) ->
  main inp = Some reply ->
  dim (parseProbeFields text) = Some "RISK"%string ->
  option_map d_state (response (snd (post getSession_new inp))) = Some 0.3712.
Proof.
  intros Hp Hm Hd; rewrite (POST_first_turn_state inp text reply Hp Hm), Hd.
  rewrite applyDimWeight_initial_risk.
  rewrite hysteresisUpdate_outside by lra.
  rewrite clamp01_id by lra; f_equal; lra.
Qed.

Lemma steady_probe_surprisal :
  meanSurprisal (sliceFirstLine [mkTok "DIM" (-2) None] 30) = Some 2.
Proof.
  unfold sliceFirstLine, meanSurprisal; simpl.
  unfold sum; simpl; f_equal; lra.
Qed.

Lemma steady_run_S_stats (n : nat) : forall sess v,
  S_stats (gate sess) = mkStats 2 v ->
  S_stats (gate (run' sess (repeat steady_probe n))) = mkStats 2 (0.94 ^ n * v).
Proof.
  induction n as [|n IH]; intros sess v Hs; simpl.
  - rewrite Hs; f_equal; lra.
  - unfold run' in *; simpl.
    rewrite (IH _ (0.94 * v)); [f_equal; lra|].
    fold post; rewrite (POST_S_stats sess steady_probe _ _ eq_refl).
    rewrite steady_probe_surprisal, Hs; simpl.
    f_equal; unfold ETA; lra.
Qed.

Lemma pow_094_400 : 0.94 ^ 400 < 1e-8.
Proof.
  assert (H10 : 0.94 ^ 10 < 0.54) by lra.
  assert (H0 : 0 < 0.94 ^ 10) by (apply pow_lt; lra).
  replace 400%nat with (10 * 40)%nat by reflexivity.
  rewrite pow_mult.
  apply Rle_lt_trans with (0.54 ^ 40); [|lra].
  apply pow_incr; lra.
Qed.

(** C4 at a failing input: a fresh session fed 400 turns whose probe
    surprisal equals the baseline mean [2.0].  The inline update of the
    handler multiplies the stored variance by [0.94] each turn, so the
    variance of the surprisal baseline ends below the floor [1e-8] that
    [emaUpdate] keeps. *)
Theorem C4_inline_variance_below_floor :
  var (S_stats (gate (run' getSession_new (repeat steady_probe 400))))
    = 0.94 ^ 400 /\
  var (S_stats (gate (run' getSession_new (repeat steady_probe 400)))) < 1e-8 /\
  var (snd (baselineStep (mkStats 2 1e-8) 2)) < 1e-8.
Proof.
  pose proof (steady_run_S_stats 400 getSession_new 1 eq_refl) as E.
  split; [|split].
  - rewrite E; simpl var; lra.
  - rewrite E; simpl var; rewrite Rmult_1_r; apply pow_094_400.
  - rewrite baselineStep_at_mean; simpl; lra.
Qed.

End HandlerFacts.

(** C3 at a failing input: on the first turn of a fresh session, with no
    token log-probabilities and a probe whose dimension parses to RISK,
    the handler returns the state [0.3712], not the default [0.3]: the
    previous state stands in for the raw state, the RISK weight lifts it
    to [0.478], and the hysteresis moves the state toward that value. *)
Theorem C3_first_turn_risk_leaves_default :
  option_map d_state
    (response
       (snd (POST fields_of_probe no_candidates no_pick text_of_frame
                  key_of_frame getSession_new risk_probe_without_logprobs)))
  = Some 0.3712 /\
  0.3712 <> last_state createInitialGateState.
Proof.
  split.
  - apply (first_turn_risk_state fields_of_probe no_candidates no_pick
             text_of_frame key_of_frame risk_probe_without_logprobs
             "DIM: RISK"%string "Noted."%string); reflexivity.
  - simpl; lra.
Qed.

(** C6, as stated, fails in two ways.  With eight buffered states and
    labels but only seven buffered focus strings every listed condition
    holds, yet the handler requests no candidates; and when the probe call
    of the turn throws nothing is requested although a stagnating session
    meets every condition. *)
Lemma C6_listed_conditions_counterexample :
  (pulse_conditions_as_listed (gate short_focus_session)
                              (turn short_focus_session + 1) /\
   candidates_requested
     (snd (POST fields_of_probe no_candidates no_pick text_of_frame
                key_of_frame short_focus_session steady_probe)) = false) /\
  (pulse_conditions_as_listed (gate stagnant_session)
                              (turn stagnant_session + 1) /\
   candidates_requested
     (snd (POST fields_of_probe no_candidates no_pick text_of_frame
                key_of_frame stagnant_session failed_probe)) = false).
Proof.
  assert (Hvar : sample_variance (lastn 8 (repeat 0.3 8)) < 0.002).
  { unfold sample_variance, lastn; simpl; unfold sum; simpl; lra. }
  assert (Hgoal : forall n, at_most_distinct 1 (lastn 8 (repeat "GOAL"%string n))).
  { intros n; exists ["GOAL"%string]; split; [simpl; lia|].
    intros x Hx; unfold lastn in Hx.
    assert (Hr : In x (repeat "GOAL"%string n)).
    { rewrite <- (firstn_skipn (length (repeat "GOAL"%string n) - 8));
        apply in_or_app; now right. }
    apply repeat_spec in Hr; subst; now left. }
  assert (Hplan : forall n,
             at_most_distinct 2 (lastn 8 (repeat "release plan"%string n))).
  { intros n; exists ["release plan"%string]; split; [simpl; lia|].
    intros x Hx; unfold lastn in Hx.
    assert (Hr : In x (repeat "release plan"%string n)).
    { rewrite <- (firstn_skipn (length (repeat "release plan"%string n) - 8));
        apply in_or_app; now right. }
    apply repeat_spec in Hr; subst; now left. }
  assert (Hnorisk : Forall (fun d => d <> "RISK"%string)
                           (lastn 8 (repeat "GOAL"%string 8))).
  { unfold lastn; simpl; repeat constructor; discriminate. }
  split; split.
  - unfold pulse_conditions_as_listed, short_focus_session.
    cbn [gate last_states last_dims last_focus last_pulse_turn last_state turn].
    split; [simpl; lia|]; split; [exact Hvar|]; split; [apply Hgoal|].
    split; [apply Hplan|]; split; [lia|]; split; [exact Hnorisk | lra].
  - rewrite POST_requested; reflexivity.
  - unfold pulse_conditions_as_listed, stagnant_session.
    cbn [gate last_states last_dims last_focus last_pulse_turn last_state turn].
    split; [simpl; lia|]; split; [exact Hvar|]; split; [apply Hgoal|].
    split; [apply Hplan|]; split; [lia|]; split; [exact Hnorisk | lra].
  - rewrite POST_requested; reflexivity.
Qed.

(** C6 on a session that repeated one GOAL frame for eight turns at state
    0.3: the candidates are requested on the ninth turn. *)
Lemma C6_pulse_attempt_iff_witness :
  candidates_requested
    (snd (POST fields_of_probe no_candidates no_pick text_of_frame
               key_of_frame stagnant_session steady_probe))
  = true.
Proof.
  apply (C6_pulse_attempt_iff fields_of_probe no_candidates no_pick
           text_of_frame key_of_frame stagnant_session steady_probe).
  split; [discriminate|].
  split; [simpl; lia|].
  split.
  { unfold sample_variance, lastn; simpl.
    unfold sum; simpl; lra. }
  split.
  { exists ["GOAL"%string]; split; [simpl; lia|].
    intros x Hx; simpl in Hx; simpl; tauto. }
  split.
  { exists ["release plan"%string]; split; [simpl; lia|].
    intros x Hx; simpl in Hx; simpl; tauto. }
  split; [simpl; lia|].
  split; [|simpl; lra].
  unfold lastn; simpl; repeat constructor; discriminate.
Defined.

(** C7 on a bank of two notes, the incoming note repeating the key of the
    second. *)
Lemma C7_upsert_merges_witness :
  map f_key (fst (upsertFragment [note_risk; note_goal] incoming_goal "f_3_000000"))
    = map f_key [note_risk; note_goal] /\
  exists m,
    In m (fst (upsertFragment [note_risk; note_goal] incoming_goal "f_3_000000")) /\
    f_key m = i_key incoming_goal /\
    f_salience m = clamp 0 1.2 (Rmax 0.3 0.7 + 0.08) /\
    Rmax 0.3 0.7 <= f_salience m.
Proof.
  assert (Hnd : NoDup (map f_key [note_risk; note_goal])).
  { simpl; constructor; [|constructor; [|constructor]]; simpl.
    - intros [H|[]]; discriminate H.
    - tauto. }
  assert (Hsal : Forall (fun f => 0 <= f_salience f <= 1.2)
                        [note_risk; note_goal]).
  { repeat constructor; simpl; lra. }
  assert (Hinc : 0 <= i_salience incoming_goal <= 1.2) by (simpl; lra).
  assert (Hin : In note_goal [note_risk; note_goal]) by (simpl; tauto).
  destruct (C7_upsert_merges [note_risk; note_goal] incoming_goal "f_3_000000"
              note_goal Hnd Hsal Hinc Hin eq_refl)
    as (_ & _ & _ & Hkeys & _ & _ & m & Hm & Hk & _ & _ & _ & _ & _ & Hs & Hge & _).
  split; [exact Hkeys|].
  exists m; repeat split; assumption.
Defined.

(** C1: for every state in [0,1] each budget lies in its documented range
    (context messages [4,18], summary characters [0,220], attention-log
    items [0,10], fragment items [0,10], summary refresh interval [1,18],
    summary refresh tokens [20,120], main response tokens [60,520],
    temperature [0.05,0.70]), whatever the top salience and whether or not
    a pulse fired; and for states [s1 <= s2] in [0,1], with these two held
    fixed, every budget is non-decreasing in the state except the summary
    refresh interval, which is non-increasing. *)
Theorem C1_budgets_range_and_monotone :
  (forall (s top : R) (pulse : bool),
     0 <= s <= 1 ->
     (4 <= ctx_keep_msgs s <= 18)%Z /\
     (0 <= summary_chars s <= 220)%Z /\
     (0 <= attn_items s <= 10)%Z /\
     (0 <= frag_items s top <= 10)%Z /\
     (1 <= summary_update_interval s <= 18)%Z /\
     (20 <= summary_update_max_tokens s <= 120)%Z /\
     (60 <= max_output_tokens s pulse <= 520)%Z /\
     0.05 <= temperature s <= 0.70) /\
  (forall (s1 s2 top : R) (pulse : bool),
     0 <= s1 -> s1 <= s2 -> s2 <= 1 ->
     (ctx_keep_msgs s1 <= ctx_keep_msgs s2)%Z /\
     (summary_chars s1 <= summary_chars s2)%Z /\
     (attn_items s1 <= attn_items s2)%Z /\
     (frag_items s1 top <= frag_items s2 top)%Z /\
     (summary_update_interval s2 <= summary_update_interval s1)%Z /\
     (summary_update_max_tokens s1 <= summary_update_max_tokens s2)%Z /\
     (max_output_tokens s1 pulse <= max_output_tokens s2 pulse)%Z /\
     temperature s1 <= temperature s2).
Proof.
  split.
  - intros s top pulse Hs.
    assert (Hmain : (60 <= round (lerp 60 520 s) <= 520)%Z).
    { apply round_range; apply lerp_range_up; lra. }
    assert (Hfrag : (0 <= clampZ 0 10 (round (lerp 0 10 (smoothstep 0.20 0.86 s)))
                     <= 10)%Z) by (apply clampZ_range; lia).
    assert (R1 : (4 <= ctx_keep_msgs s <= 18)%Z) by (apply clampZ_range; lia).
    assert (R2 : (0 <= summary_chars s <= 220)%Z).
    { apply round_range, lerp_range_up; [lra | apply smoothstep_range]. }
    assert (R3 : (0 <= attn_items s <= 10)%Z) by (apply clampZ_range; lia).
    assert (R4 : (0 <= frag_items s top <= 10)%Z).
    { unfold frag_items; destruct (_ && _); lia. }
    assert (R5 : (1 <= summary_update_interval s <= 18)%Z)
      by (apply clampZ_range; lia).
    assert (R6 : (20 <= summary_update_max_tokens s <= 120)%Z)
      by (apply clampZ_range; lia).
    assert (R7 : (60 <= max_output_tokens s pulse <= 520)%Z).
    { unfold max_output_tokens; destruct pulse; lia. }
    assert (R8 : 0.05 <= temperature s <= 0.70).
    { unfold temperature; rewrite clamp_id; unfold lerp; lra. }
    exact (conj R1 (conj R2 (conj R3 (conj R4 (conj R5 (conj R6 (conj R7 R8))))))).
  - intros s1 s2 top pulse H0 H12 H1.
    assert (Hfrag : (clampZ 0 10 (round (lerp 0 10 (smoothstep 0.20 0.86 s1)))
                     <= clampZ 0 10 (round (lerp 0 10 (smoothstep 0.20 0.86 s2))))%Z).
    { apply clampZ_mono, round_mono, lerp_mono_up; [lra|].
      apply smoothstep_mono; lra. }
    assert (Hmain : (round (lerp 60 520 s1) <= round (lerp 60 520 s2))%Z).
    { apply round_mono, lerp_mono_up; lra. }
    assert (M1 : (ctx_keep_msgs s1 <= ctx_keep_msgs s2)%Z).
    { apply clampZ_mono, round_mono, lerp_mono_up; [lra|].
      apply powEase_mono; lra. }
    assert (M2 : (summary_chars s1 <= summary_chars s2)%Z).
    { apply round_mono, lerp_mono_up; [lra|]; apply smoothstep_mono; lra. }
    assert (M3 : (attn_items s1 <= attn_items s2)%Z).
    { apply clampZ_mono, round_mono, lerp_mono_up; [lra|].
      apply smoothstep_mono; lra. }
    assert (M4 : (frag_items s1 top <= frag_items s2 top)%Z).
    { unfold frag_items.
      assert (Hlo : (0 <= clampZ 0 10 (round (lerp 0 10 (smoothstep 0.20 0.86 s1))))%Z)
        by (apply clampZ_range; lia).
      destruct (Z.eqb_spec
                  (clampZ 0 10 (round (lerp 0 10 (smoothstep 0.20 0.86 s1)))) 0);
      destruct (Z.eqb_spec
                  (clampZ 0 10 (round (lerp 0 10 (smoothstep 0.20 0.86 s2)))) 0);
      destruct (ltb 0.9 top); simpl; lia. }
    assert (M5 : (summary_update_interval s2 <= summary_update_interval s1)%Z).
    { apply clampZ_mono, round_mono, lerp_mono_down; [lra|].
      apply powEase_mono; lra. }
    assert (M6 : (summary_update_max_tokens s1 <= summary_update_max_tokens s2)%Z).
    { apply clampZ_mono, round_mono, lerp_mono_up; [lra|].
      apply powEase_mono; lra. }
    assert (M7 : (max_output_tokens s1 pulse <= max_output_tokens s2 pulse)%Z).
    { unfold max_output_tokens; destruct pulse; lia. }
    assert (M8 : temperature s1 <= temperature s2).
    { unfold temperature; apply clamp_mono, lerp_mono_up; lra. }
    exact (conj M1 (conj M2 (conj M3 (conj M4 (conj M5 (conj M6 (conj M7 M8))))))).
Qed.

(** C1 at the states 0.5, 0.2 and 0.8. *)
Lemma C1_budgets_range_and_monotone_witness :
  (4 <= ctx_keep_msgs 0.5 <= 18)%Z /\
  (60 <= max_output_tokens 0.5 true <= 520)%Z /\
  (ctx_keep_msgs 0.2 <= ctx_keep_msgs 0.8)%Z /\
  (summary_update_interval 0.8 <= summary_update_interval 0.2)%Z.
Proof.
  assert (H05 : 0 <= 0.5 <= 1) by lra.
  assert (Ha : 0 <= 0.2) by lra.
  assert (Hb : 0.2 <= 0.8) by lra.
  assert (Hc : 0.8 <= 1) by lra.
  destruct (proj1 C1_budgets_range_and_monotone 0.5 0 true H05)
    as (R1 & _ & _ & _ & _ & _ & R7 & _).
  destruct (proj2 C1_budgets_range_and_monotone 0.2 0.8 0 true Ha Hb Hc)
    as (M1 & _ & _ & _ & M5 & _).
  exact (conj R1 (conj R7 (conj M1 M5))).
Defined.

(** * Further properties of the code *)

(** ** Probe metrics *)

Lemma sliceFirstLine_from_spec (maxTokens : nat) (tokens : list TokenLogprob) :
  forall n,
  let out := sliceFirstLine_from n maxTokens tokens in
  exists rest,
    tokens = out ++ rest /\
    (length out <= Nat.max 1 (maxTokens - n))%nat /\
    Forall (fun t => includes_newline (token t) = false) (removelast out) /\
    (rest = [] \/ (maxTokens <= n + length out)%nat \/
     exists t, last_token out = Some t /\ includes_newline (token t) = true).
Proof.
  induction tokens as [|t ts IH]; intros n; cbn zeta; cbn [sliceFirstLine_from].
  - exists []; split; [reflexivity|]; split; [cbn [length]; lia|].
    split; [constructor | now left].
  - destruct (maxTokens <=? S n)%nat eqn:E1.
    + apply Nat.leb_le in E1.
      exists ts; split; [reflexivity|]; split; [cbn [length]; lia|].
      split; [constructor | right; left; cbn [length]; lia].
    + apply Nat.leb_gt in E1.
      destruct (includes_newline (token t)) eqn:E2.
      * exists ts; split; [reflexivity|]; split; [cbn [length]; lia|].
        split; [constructor|].
        right; right; exists t; split; [reflexivity | assumption].
      * destruct (IH (S n)) as (rest & Heq & Hlen & Hnl & Hstop).
        set (out := sliceFirstLine_from (S n) maxTokens ts) in *.
        exists rest; split; [simpl; now rewrite <- Heq|].
        split; [cbn [length]; lia|].
        split.
        { destruct out as [|o out']; [constructor|].
          change (removelast (t :: o :: out')) with (t :: removelast (o :: out')).
          constructor; assumption. }
        destruct Hstop as [H|[H|(u & Hu & Hn)]];
          [now left | right; left; cbn [length]; lia|].
        right; right; exists u; split; [|assumption].
        unfold last_token in *; destruct out as [|o out']; [discriminate Hu|].
        simpl in *; now rewrite Nat.sub_0_r in *.
Qed.

(** X1: [sliceFirstLine] returns a prefix of the token array that is empty
    only for an empty array, holds at most [max 1 maxTokens] tokens, and in
    which no token before the last contains a newline; it stops short of
    the end of the array only at the token limit or right after a token
    that contains a newline. *)
Theorem sliceFirstLine_prefix (tokens : list TokenLogprob) (maxTokens : nat) :
  let out := sliceFirstLine tokens maxTokens in
  exists rest,
    tokens = out ++ rest /\
    (out = [] <-> tokens = []) /\
    (length out <= Nat.max 1 maxTokens)%nat /\
    Forall (fun t => includes_newline (token t) = false) (removelast out) /\
    (rest = [] \/ (maxTokens <= length out)%nat \/
     exists t, last_token out = Some t /\ includes_newline (token t) = true).
Proof.
  intros out.
  destruct (sliceFirstLine_from_spec maxTokens tokens 0)
    as (rest & Heq & Hlen & Hnl & Hstop).
  fold (sliceFirstLine tokens maxTokens) in *; fold out in Heq, Hlen, Hnl, Hstop.
  exists rest; split; [assumption|]; split.
  - unfold out, sliceFirstLine; destruct tokens; simpl; split;
      intros H; try reflexivity; discriminate.
  - rewrite Nat.sub_0_r in Hlen; repeat split; assumption.
Qed.

Lemma sum_bounds (a b : R) (xs : list R) :
  Forall (fun x => a <= x <= b) xs ->
  a * INR (length xs) <= sum xs <= b * INR (length xs).
Proof.
  induction 1 as [|x xs Hx _ IH].
  - unfold sum; simpl; lra.
  - rewrite sum_cons; change (length (x :: xs)) with (S (length xs)).
    rewrite S_INR; lra.
Qed.

(** X2: [meanSurprisal] is [null] exactly for the empty slice; when every
    token's surprisal [-logprob] lies in [[a, b]] so does the mean (so the
    mean of log-probabilities that are at most 0 is never negative). *)
Theorem meanSurprisal_bounds (tokens : list TokenLogprob) (a b : R) :
  Forall (fun t => a <= - logprob t <= b) tokens ->
  (meanSurprisal tokens = None <-> tokens = []) /\
  match meanSurprisal tokens with
  | Some m => a <= m <= b
  | None => True
  end.
Proof.
  intros Hall; split.
  - destruct tokens; simpl; split; intros H; try reflexivity; discriminate.
  - destruct tokens as [|t ts]; [exact I|].
    unfold meanSurprisal.
    set (vals := map (fun t => - logprob t) (t :: ts)).
    assert (Hv : Forall (fun x => a <= x <= b) vals).
    { unfold vals; apply Forall_forall; intros x Hx.
      apply in_map_iff in Hx; destruct Hx as (u & <- & Hu).
      rewrite Forall_forall in Hall; now apply Hall. }
    pose proof (sum_bounds a b vals Hv) as Hs.
    assert (Hn : 0 < INR (length vals)).
    { apply lt_0_INR; unfold vals; simpl; lia. }
    split.
    + apply Rmult_le_reg_r with (INR (length vals)); [assumption|].
      unfold Rdiv; rewrite Rmult_assoc, Rinv_l by lra; lra.
    + apply Rmult_le_reg_r with (INR (length vals)); [assumption|].
      unfold Rdiv; rewrite Rmult_assoc, Rinv_l by lra; lra.
Qed.

(** X2 on one token of log-probability [-2]. *)
Lemma meanSurprisal_bounds_witness :
  match meanSurprisal [mkTok "DIM" (-2) None] with
  | Some m => 0 <= m <= 5
  | None => True
  end.
Proof.
  apply (meanSurprisal_bounds [mkTok "DIM" (-2) None] 0 5).
  repeat constructor; simpl; lra.
Defined.

(** ** Baselines, z-score, squash *)

(** X3: [emaUpdate] never returns a variance below the floor [1e-8], and
    for a rate [eta] in [[0, 1]] the new mean lies between the old mean and
    the observation. *)
Theorem emaUpdate_floor_and_mean (st : RunningStats) (x eta : R) :
  0 <= eta <= 1 ->
  1e-8 <= var (emaUpdate st x eta) /\
  Rmin (mean st) x <= mean (emaUpdate st x eta) <= Rmax (mean st) x.
Proof.
  intros He; split; [apply emaUpdate_var_floor|].
  unfold emaUpdate, Rmin, Rmax; simpl.
  destruct (Rle_dec (mean st) x); nra.
Qed.

Lemma emaUpdate_floor_and_mean_witness :
  1e-8 <= var (emaUpdate (mkStats 2 0) 2 0.06) /\
  Rmin 2 2 <= mean (emaUpdate (mkStats 2 0) 2 0.06) <= Rmax 2 2.
Proof.
  apply (emaUpdate_floor_and_mean (mkStats 2 0) 2 0.06); lra.
Defined.




(** The logistic squash stays in [0,1], is non-decreasing, and lies on the
    side of 1/2 given by the sign of its argument. *)
Lemma sigmoid_bounds (x y : R) :
  0 <= sigmoid x <= 1 /\
  (x <= y -> sigmoid x <= sigmoid y) /\
  (0 <= x -> 1 / 2 <= sigmoid x) /\
  (x <= 0 -> sigmoid x <= 1 / 2).
Proof.
  assert (Hmono : forall u v, u <= v -> sigmoid u <= sigmoid v).
  { intros u v Huv; unfold sigmoid.
    pose proof (exp_pos (- u)); pose proof (exp_pos (- v)).
    assert (He : exp (- v) <= exp (- u)).
    { destruct Huv as [Hlt| ->]; [left; apply exp_increasing; lra | lra]. }
    unfold Rdiv; rewrite !Rmult_1_l.
    apply Rinv_le_contravar; lra. }
  assert (H0 : sigmoid 0 = 1 / 2).
  { unfold sigmoid; rewrite Ropp_0, exp_0; lra. }
  pose proof (exp_pos (- x)) as Hx.
  split; [split|split; [apply Hmono|split]].
  - left; unfold sigmoid; apply Rdiv_lt_0_compat; lra.
  - left; unfold sigmoid.
    apply Rmult_lt_reg_r with (1 + exp (- x)); [lra|].
    unfold Rdiv; rewrite Rmult_assoc, Rinv_l by lra; lra.
  - intros H; rewrite <- H0; now apply Hmono.
  - intros H; rewrite <- H0; now apply Hmono.
Qed.

Lemma scorePhase_raw (prev : R) (zS zH : option R) (score : R) :
  fst (scorePhase prev zS zH) = Some score ->
  snd (scorePhase prev zS zH) = sigmoid (score / 1.2).
Proof.
  assert (Hsome : forall sc,
            1 / (1 + exp (- sc / 1.2)) = sigmoid (sc / 1.2)).
  { intros sc; unfold sigmoid; do 3 f_equal; lra. }
  unfold scorePhase.
  destruct zS as [a|], zH as [b|]; cbn [fst snd]; intros H;
    inversion H; subst; apply Hsome.
Qed.

(** X5: the raw state of a turn.  A score is reported unless both
    z-scores are unavailable.  Whenever a score is reported the raw state
    lies in [0,1], on the side of 1/2 given by the sign of the score (at
    least 1/2 for a non-negative score, at most 1/2 for a non-positive
    one), and of two turns the one with the higher score never gets the
    lower raw state; the score itself does not decrease when an available
    z-score increases.  With a previous state in [0,1] the raw state is in
    [0,1] in every case. *)
Theorem scorePhase_squash (prev prev' : R) (zS zH zS' zH' : option R) :
  (fst (scorePhase prev zS zH) = None <-> zS = None /\ zH = None) /\
  (0 <= prev <= 1 -> 0 <= snd (scorePhase prev zS zH) <= 1) /\
  (forall score, fst (scorePhase prev zS zH) = Some score ->
     0 <= snd (scorePhase prev zS zH) <= 1 /\
     (0 <= score -> 1 / 2 <= snd (scorePhase prev zS zH)) /\
     (score <= 0 -> snd (scorePhase prev zS zH) <= 1 / 2)) /\
  (forall score score',
     fst (scorePhase prev zS zH) = Some score ->
     fst (scorePhase prev' zS' zH') = Some score' ->
     score <= score' ->
     snd (scorePhase prev zS zH) <= snd (scorePhase prev' zS' zH')) /\
  (forall a b a' b',
     a <= a' -> b <= b' ->
     forall score score',
       fst (scorePhase prev (Some a) (Some b)) = Some score ->
       fst (scorePhase prev' (Some a') (Some b')) = Some score' ->
       score <= score').
Proof.
  split; [|split; [|split; [|split]]].
  - unfold scorePhase; destruct zS as [a|], zH as [b|]; cbn [fst];
      split; try discriminate; try (intros [? ?]; discriminate);
      intros; split; reflexivity.
  - intros Hp.
    destruct (fst (scorePhase prev zS zH)) as [sc|] eqn:E.
    + rewrite (scorePhase_raw _ _ _ _ E).
      apply (sigmoid_bounds (sc / 1.2) 0).
    + unfold scorePhase in *; destruct zS as [a|], zH as [b|];
        cbn [fst snd] in *; try discriminate; assumption.
  - intros sc E; rewrite (scorePhase_raw _ _ _ _ E).
    destruct (sigmoid_bounds (sc / 1.2) 0) as (Hr & _ & Hpos & Hneg).
    split; [assumption|]; split; intros H; [apply Hpos | apply Hneg]; lra.
  - intros sc sc' E E' Hle.
    rewrite (scorePhase_raw _ _ _ _ E), (scorePhase_raw _ _ _ _ E').
    apply (sigmoid_bounds (sc / 1.2) (sc' / 1.2)); lra.
  - intros a b a' b' Ha Hb sc sc' E E'.
    unfold scorePhase in E, E'; cbn [fst or_zero] in E, E'.
    inversion E; inversion E'; subst; lra.
Qed.

Lemma scorePhase_squash_witness :
  0 <= snd (scorePhase 0.3 (Some 1) None) <= 1 /\
  1 / 2 <= snd (scorePhase 0.3 (Some 1) None).
Proof.
  destruct (scorePhase_squash 0.3 0.3 (Some 1) None (Some 1) None)
    as (_ & Hr & Hs & _).
  split; [apply Hr; lra|].
  apply (Hs (0.7 * 1 + 0.3 * 0)); [reflexivity | lra].
Defined.

(** ** Hysteresis over several turns *)

Lemma hysteresis_step_outside (prev raw : R) :
  0 <= prev <= 1 -> 0 <= raw <= 1 -> raw <= 0.48 \/ 0.62 <= raw ->
  hysteresisUpdate prev raw 0.62 0.48 0.6 = 0.6 * prev + 0.4 * raw.
Proof.
  intros Hp Hr Ho; rewrite hysteresisUpdate_outside by assumption.
  apply clamp01_id; lra.
Qed.

(** X6: inside the band the signal is ignored.  Two runs of turns from the
    same state whose weighted raw values all lie strictly inside the band
    (0.48, 0.62) end in the same state, whatever those values were: the
    state after such a run depends only on the state before it and on the
    number of turns.  After at least one turn (in or out of the band) the
    state is in [0,1]. *)
Theorem hysteresis_band_ignores_raw (prev : R) (raws raws' : list R) :
  (Forall2 (fun r r' => 0.48 < r < 0.62 /\ 0.48 < r' < 0.62) raws raws' ->
   hysteresis_run prev raws = hysteresis_run prev raws') /\
  (raws <> [] -> 0 <= hysteresis_run prev raws <= 1).
Proof.
  unfold hysteresis_run; split.
  - intros Hall; revert prev.
    induction Hall as [|r r' rs rs' [Hr Hr'] _ IH]; intros prev; simpl;
      [reflexivity|].
    rewrite (hysteresisUpdate_inside prev r Hr),
            (hysteresisUpdate_inside prev r' Hr').
    apply IH.
  - intros Hne.
    destruct (exists_last Hne) as (rs & r & ->).
    rewrite fold_left_app; simpl; apply hysteresisUpdate_range.
Qed.

Lemma hysteresis_band_ignores_raw_witness :
  hysteresis_run 0.3 [0.5; 0.6; 0.49] = hysteresis_run 0.3 [0.61; 0.55; 0.5].
Proof.
  apply (hysteresis_band_ignores_raw 0.3 [0.5; 0.6; 0.49] [0.61; 0.55; 0.5]).
  repeat (constructor; [split; lra|]); constructor.
Defined.

(** X7: decisive movement.  For a state in [0,1] and a raw value in [0,1]
    outside the band (at most 0.48 or at least 0.62), [n] turns with that
    raw value shrink the distance to it by the factor [0.6 ^ n], and the
    state stays in [0,1]. *)
Theorem hysteresis_geometric (prev raw : R) (n : nat) :
  0 <= prev <= 1 -> 0 <= raw <= 1 -> raw <= 0.48 \/ 0.62 <= raw ->
  hysteresis_run prev (repeat raw n) - raw = 0.6 ^ n * (prev - raw) /\
  0 <= hysteresis_run prev (repeat raw n) <= 1.
Proof.
  intros Hp Hr Ho; unfold hysteresis_run.
  revert prev Hp; induction n as [|n IH]; intros prev Hp; simpl.
  - split; lra.
  - rewrite hysteresis_step_outside by assumption.
    destruct (IH (0.6 * prev + 0.4 * raw)) as [E B]; [lra|].
    split; [rewrite E; lra | exact B].
Qed.

Lemma hysteresis_geometric_witness :
  hysteresis_run 0.3 (repeat 0.9 2) - 0.9 = 0.6 ^ 2 * (0.3 - 0.9).
Proof.
  apply (hysteresis_geometric 0.3 0.9 2); [lra | lra | right; lra].
Defined.

(** ** Stagnation measures *)

Lemma sum_nonneg (xs : list R) : Forall (fun x => 0 <= x) xs -> 0 <= sum xs.
Proof.
  induction 1 as [|x xs Hx _ IH]; [unfold sum; simpl; lra|].
  rewrite sum_cons; lra.
Qed.

Lemma sum_ge_member (xs : list R) (x : R) :
  Forall (fun y => 0 <= y) xs -> In x xs -> x <= sum xs.
Proof.
  induction 1 as [|y ys Hy Hys IH]; intros Hin; [contradiction|].
  rewrite sum_cons; pose proof (sum_nonneg ys Hys).
  destruct Hin as [-> | Hin]; [lra | specialize (IH Hin); lra].
Qed.

(** Two members at different positions are both counted by the sum. *)
Lemma sum_ge_two_members (f : R -> R) (xs : list R) (x y : R) :
  (forall z, 0 <= f z) -> In x xs -> In y xs -> x <> y ->
  f x + f y <= sum (map f xs).
Proof.
  intros Hf Hx Hy Hxy.
  destruct (in_split x xs Hx) as (l1 & l2 & ->).
  assert (Hy' : In y (l1 ++ l2)).
  { apply in_app_or in Hy; apply in_or_app.
    destruct Hy as [Hy | [Hy | Hy]]; [now left | congruence | now right]. }
  assert (Hnn : Forall (fun z => 0 <= z) (map f (l1 ++ l2))).
  { apply Forall_forall; intros z Hz; apply in_map_iff in Hz.
    destruct Hz as (w & <- & _); apply Hf. }
  pose proof (sum_ge_member _ (f y) Hnn (in_map f _ _ Hy')) as Hle.
  rewrite map_app, sum_app in Hle.
  rewrite map_app, sum_app; simpl; rewrite sum_cons; lra.
Qed.

(** The squared deviations from any centre [c] exceed those from [m] by
    a cross term and [n * (m - c) ^ 2]; the cross term vanishes at the
    arithmetic mean. *)
Lemma sum_sq_shift (xs : list R) (m c : R) :
  sum (map (fun x => (x - c) ^ 2) xs)
  = sum (map (fun x => (x - m) ^ 2) xs)
    + 2 * (m - c) * (sum xs - INR (length xs) * m)
    + INR (length xs) * (m - c) ^ 2.
Proof.
  induction xs as [|x xs IH].
  - unfold sum; simpl; lra.
  - cbn [map]; rewrite !sum_cons, IH.
    change (length (x :: xs)) with (S (length xs)); rewrite S_INR.
    simpl; lra.
Qed.

Lemma sum_sq_mean_le (xs : list R) (c : R) :
  xs <> [] ->
  sum (map (fun x => (x - sum xs / INR (length xs)) ^ 2) xs)
  <= sum (map (fun x => (x - c) ^ 2) xs).
Proof.
  intros Hne.
  assert (Hn : 0 < INR (length xs)).
  { apply lt_0_INR; destruct xs; [congruence | simpl; lia]. }
  rewrite (sum_sq_shift xs (sum xs / INR (length xs)) c).
  replace (sum xs - INR (length xs) * (sum xs / INR (length xs))) with 0
    by (field; lra).
  pose proof (pow2_ge_0 (sum xs / INR (length xs) - c)) as Hsq.
  assert (0 <= INR (length xs) * (sum xs / INR (length xs) - c) ^ 2)
    by (apply Rmult_le_pos; lra).
  lra.
Qed.

(** X8: what the flatness test [variance (last 8 states) < 0.002] means.
    [variance] is never negative.  Eight states (values in [0,1]) that all
    lie in one window of width 0.08 pass the test; and when eight values
    pass it, any two of them differ by less than 0.17. *)
Theorem variance_flatness_window (xs : list R) :
  0 <= variance xs /\
  (length xs = 8%nat ->
   forall lo,
     Forall (fun x => 0 <= x <= 1 /\ lo <= x <= lo + 0.08) xs ->
     variance xs < 0.002) /\
  (length xs = 8%nat -> variance xs < 0.002 ->
   forall x y, In x xs -> In y xs -> Rabs (x - y) < 0.17).
Proof.
  assert (Hsq : forall mu,
            Forall (fun x => 0 <= x) (map (fun x => (x - mu) ^ 2) xs)).
  { intros mu; apply Forall_forall; intros y Hy; apply in_map_iff in Hy.
    destruct Hy as (x & <- & _); apply pow2_ge_0. }
  split; [|split].
  - unfold variance.
    destruct (length xs <=? 1)%nat eqn:E; [lra|].
    apply Nat.leb_gt in E.
    rewrite fold_left_add_sum, Rplus_0_l.
    assert (Hn : 0 < INR (length xs - 1)) by (apply lt_0_INR; lia).
    pose proof (sum_nonneg _ (Hsq (sum xs / INR (length xs)))) as Hs.
    apply Rmult_le_pos; [lra | left; now apply Rinv_0_lt_compat].
  - intros Hlen lo Hall.
    rewrite variance_sample by lia; unfold sample_variance; rewrite Hlen.
    replace (INR 8 - 1) with 7 by (simpl; lra).
    assert (Hne : xs <> []) by (intros ->; discriminate).
    pose proof (sum_sq_mean_le xs (lo + 0.04) Hne) as Hle.
    rewrite Hlen in Hle.
    assert (Hb : Forall (fun v => 0 <= v <= 0.0016)
                   (map (fun x => (x - (lo + 0.04)) ^ 2) xs)).
    { apply Forall_forall; intros v Hv; apply in_map_iff in Hv.
      destruct Hv as (x & <- & Hx).
      rewrite Forall_forall in Hall; destruct (Hall x Hx) as [_ Hw].
      split; [apply pow2_ge_0 | simpl; nra]. }
    apply sum_bounds in Hb; rewrite length_map, Hlen in Hb.
    replace (INR 8) with 8 in Hb by (simpl; lra).
    lra.
  - intros Hlen Hv x y Hx Hy.
    rewrite variance_sample in Hv by lia.
    unfold sample_variance in Hv; rewrite Hlen in Hv.
    replace (INR 8 - 1) with 7 in Hv by (simpl; lra).
    set (mu := sum xs / INR 8) in Hv.
    destruct (Req_dec_T x y) as [-> | Hxy].
    { rewrite Rminus_diag, Rabs_R0; lra. }
    pose proof (sum_ge_two_members (fun z => (z - mu) ^ 2) xs x y
                  (fun z => pow2_ge_0 (z - mu)) Hx Hy Hxy) as Hle.
    cbv beta in Hle.
    assert (H2 : (x - y) ^ 2 <= 2 * ((x - mu) ^ 2 + (y - mu) ^ 2)).
    { pose proof (pow2_ge_0 (x - mu + (y - mu))) as Hp.
      simpl in Hp; simpl; lra. }
    assert (H3 : (x - y) ^ 2 < 0.17 ^ 2) by (simpl in *; lra).
    apply Rabs_def1.
    + destruct (Rlt_dec (x - y) 0.17) as [|Hn]; [assumption|].
      exfalso; simpl in H3; nra.
    + destruct (Rlt_dec (- (0.17)) (x - y)) as [|Hn]; [lra|].
      exfalso; simpl in H3; nra.
Qed.

Lemma variance_flatness_window_witness :
  variance [0.30; 0.31; 0.32; 0.33; 0.34; 0.35; 0.36; 0.37] < 0.002.
Proof.
  destruct (variance_flatness_window
              [0.30; 0.31; 0.32; 0.33; 0.34; 0.35; 0.36; 0.37])
    as (_ & Hflat & _).
  apply (Hflat eq_refl 0.30).
  repeat (constructor; [split; lra|]); constructor.
Defined.

(** X9: [lowDiversity xs n] holds exactly when [xs] takes at most [n]
    distinct values; so it is monotone in [n], insensitive to repeating a
    value already present, and on pairwise distinct values it compares the
    length with [n]. *)
Theorem lowDiversity_distinct_values (xs : list string) (n m : nat) (x : string) :
  (lowDiversity xs n = true <-> at_most_distinct n xs) /\
  (lowDiversity xs n = true -> (n <= m)%nat -> lowDiversity xs m = true) /\
  (In x xs -> lowDiversity (x :: xs) n = lowDiversity xs n) /\
  (NoDup xs -> lowDiversity xs n = (length xs <=? n)%nat).
Proof.
  split; [apply lowDiversity_spec|]; split; [|split].
  - unfold lowDiversity; rewrite !Nat.leb_le; lia.
  - intros Hx; unfold lowDiversity, set_size; simpl.
    destruct (in_dec string_dec x xs); [reflexivity | contradiction].
  - intros Hnd; unfold lowDiversity, set_size.
    now rewrite nodup_fixed_point.
Qed.

Lemma lowDiversity_distinct_values_witness :
  lowDiversity ["GOAL"; "GOAL"; "META"]%string 3 = true /\
  lowDiversity ["GOAL"; "META"]%string 1 = false.
Proof.
  split.
  - apply (proj1 (proj2 (lowDiversity_distinct_values
                           ["GOAL"; "GOAL"; "META"]%string 2 3 "GOAL"%string)));
      [reflexivity | lia].
  - rewrite (proj2 (proj2 (proj2 (lowDiversity_distinct_values
                                    ["GOAL"; "META"]%string 1 1 "GOAL"%string)))).
    + reflexivity.
    + repeat constructor; simpl; intuition discriminate.
Defined.

(** ** Budget curves *)

Lemma smoothstep_low (e0 e1 x : R) : e0 < e1 -> x <= e0 -> smoothstep e0 e1 x = 0.
Proof.
  intros He Hx; unfold smoothstep.
  assert (Hq : (x - e0) / (e1 - e0) <= 0).
  { unfold Rdiv; assert (0 < / (e1 - e0)) by (apply Rinv_0_lt_compat; lra).
    nra. }
  replace (clamp01 ((x - e0) / (e1 - e0))) with 0; [lra|].
  unfold clamp01, clamp, Rmax, Rmin; repeat destruct (Rle_dec _ _); lra.
Qed.

Lemma smoothstep_high (e0 e1 x : R) : e0 < e1 -> e1 <= x -> smoothstep e0 e1 x = 1.
Proof.
  intros He Hx; unfold smoothstep.
  assert (Hq : 1 <= (x - e0) / (e1 - e0)).
  { apply Rmult_le_reg_r with (e1 - e0); [lra|].
    unfold Rdiv; rewrite Rmult_assoc, Rinv_l by lra; lra. }
  replace (clamp01 ((x - e0) / (e1 - e0))) with 1; [lra|].
  unfold clamp01, clamp, Rmax, Rmin; repeat destruct (Rle_dec _ _); lra.
Qed.

(** X10: the eased budgets saturate.  No summary character is granted up
    to state 0.22 and all 220 from state 0.62 on; no attention-log item up
    to state 0.35 and all 10 from 0.85 on; the fragment count is 0 up to
    state 0.20 unless a fragment is more salient than 0.9 (then 1), and 10
    from state 0.86 on. *)
Theorem budgets_saturate (s top : R) :
  (s <= 0.22 -> summary_chars s = 0%Z) /\
  (0.62 <= s -> summary_chars s = 220%Z) /\
  (s <= 0.35 -> attn_items s = 0%Z) /\
  (0.85 <= s -> attn_items s = 10%Z) /\
  (s <= 0.20 -> frag_items s top = if ltb 0.9 top then 1%Z else 0%Z) /\
  (0.86 <= s -> frag_items s top = 10%Z).
Proof.
  assert (L0 : forall b, round (lerp 0 b 0) = 0%Z).
  { intros b; replace (lerp 0 b 0) with (IZR 0) by (unfold lerp; lra).
    apply round_IZR. }
  assert (L1 : forall b, round (lerp 0 (IZR b) 1) = b).
  { intros b; replace (lerp 0 (IZR b) 1) with (IZR b) by (unfold lerp; lra).
    apply round_IZR. }
  repeat split; intros Hs.
  - unfold summary_chars; rewrite smoothstep_low by lra; apply L0.
  - unfold summary_chars; rewrite smoothstep_high by lra; apply L1.
  - unfold attn_items; rewrite smoothstep_low, L0 by lra; reflexivity.
  - unfold attn_items; rewrite smoothstep_high, L1 by lra; reflexivity.
  - unfold frag_items; rewrite smoothstep_low, L0 by lra; reflexivity.
  - unfold frag_items; rewrite smoothstep_high, L1 by lra; reflexivity.
Qed.

Lemma budgets_saturate_witness :
  summary_chars 0.1 = 0%Z /\ attn_items 0.9 = 10%Z.
Proof.
  split.
  - apply (proj1 (budgets_saturate 0.1 0)); lra.
  - apply (proj1 (proj2 (proj2 (proj2 (budgets_saturate 0.9 0))))); lra.
Defined.

(** ** Dimension weighting *)

(** X11: for a raw state in [0,1] the weighted state stays in [0,1].  RISK
    gives [min 1 (0.22 + 0.86 * raw)], never less than the raw state; META
    gives [min raw cap] for the cap of the stage (0.55, 0.65) and the raw
    state itself once the cap is unlocked, and reports that cap; any other
    dimension, or none, leaves the raw state untouched and reports no
    cap. *)
Theorem applyDimWeight_cases (raw : R) (d : option string) (gs : GateState) :
  0 <= raw <= 1 ->
  0 <= fst (applyDimWeight raw d gs) <= 1 /\
  (d = Some "RISK"%string ->
     fst (applyDimWeight raw d gs) = Rmin 1 (0.22 + 0.86 * raw) /\
     raw <= fst (applyDimWeight raw d gs) /\
     snd (applyDimWeight raw d gs) = None) /\
  (d = Some "META"%string ->
     applyDimWeight raw d gs
     = match metaCapValue (meta_cap_stage gs) with
       | Some cap => (Rmin raw cap, Some cap)
       | None => (raw, None)
       end /\
     fst (applyDimWeight raw d gs) <= raw) /\
  (d <> Some "RISK"%string -> d <> Some "META"%string ->
     applyDimWeight raw d gs = (raw, None)).
Proof.
  intros Hr.
  assert (Hrisk : clamp01 (raw + lerp 0.22 0.08 (clamp01 raw))
                  = Rmin 1 (0.22 + 0.86 * raw)).
  { rewrite (clamp01_id raw) by assumption.
    unfold lerp, clamp01, clamp, Rmax, Rmin; repeat destruct (Rle_dec _ _); lra. }
  assert (Hrange : 0 <= Rmin 1 (0.22 + 0.86 * raw) <= 1 /\
                   raw <= Rmin 1 (0.22 + 0.86 * raw)).
  { unfold Rmin; destruct (Rle_dec _ _); lra. }
  split; [|split; [|split]].
  - unfold applyDimWeight.
    destruct (dim_is d "RISK") eqn:E1; destruct (dim_is d "META") eqn:E2;
      try rewrite Hrisk;
      try (destruct (metaCapValue (meta_cap_stage gs)) as [cap|] eqn:Ec;
           [destruct (meta_cap_stage gs); simpl in Ec; inversion Ec; subst|]);
      simpl; unfold Rmin in *; repeat destruct (Rle_dec _ _); lra.
  - intros ->; unfold applyDimWeight; simpl; rewrite Hrisk.
    repeat split; apply Hrange.
  - intros ->; unfold applyDimWeight; simpl.
    destruct (metaCapValue (meta_cap_stage gs)) as [cap|]; simpl;
      (split; [reflexivity|]); [apply Rmin_l | lra].
  - intros H1 H2; apply dim_is_false in H1, H2.
    unfold applyDimWeight; now rewrite H1, H2.
Qed.

Lemma applyDimWeight_cases_witness :
  fst (applyDimWeight 0.9 (Some "RISK"%string) createInitialGateState)
  = Rmin 1 (0.22 + 0.86 * 0.9) /\
  fst (applyDimWeight 0.9 (Some "META"%string) createInitialGateState) <= 0.9.
Proof.
  assert (H : 0 <= 0.9 <= 1) by lra.
  split.
  - apply (proj1 (proj2 (applyDimWeight_cases 0.9 (Some "RISK"%string)
                           createInitialGateState H))); reflexivity.
  - apply (proj1 (proj2 (proj2 (applyDimWeight_cases 0.9 (Some "META"%string)
                                  createInitialGateState H)))); reflexivity.
Defined.

(** ** META share and cap governor *)

Lemma count_le_length {A} (f : A -> bool) (xs : list A) :
  (length (filter f xs) <= length xs)%nat.
Proof.
  induction xs as [|x xs IH]; simpl; [lia|].
  destruct (f x); simpl; lia.
Qed.

Lemma filter_nil_iff {A} (f : A -> bool) (xs : list A) :
  filter f xs = [] <-> Forall (fun x => f x = false) xs.
Proof.
  induction xs as [|x xs IH]; simpl; [split; [constructor | reflexivity]|].
  destruct (f x) eqn:E.
  - split; [discriminate|]; intros H; inversion H; congruence.
  - rewrite IH; split; [now constructor | intros H; now inversion H].
Qed.

Lemma recentMetaShare_range_aux (gs : GateState) :
  ((length (last_dims gs) < 12)%nat -> recentMetaShare gs 12 = None) /\
  (recentMetaShare gs 12 = None -> (length (last_dims gs) < 12)%nat).
Proof.
  unfold recentMetaShare.
  pose proof (lastn_length 12 (last_dims gs)) as Hlen.
  destruct (_ <? _)%nat eqn:E.
  - apply Nat.ltb_lt in E; split; [reflexivity | intros _; lia].
  - apply Nat.ltb_ge in E; split; [intros H; lia | discriminate].
Qed.

(** X12: the recent META share is [null] exactly while fewer than 12
    dimension labels are buffered; otherwise it is the number of META
    labels among the last 12 divided by 12, a value in [0,1] that is 0
    exactly when none of the last 12 labels is META. *)
Theorem recentMetaShare_range (gs : GateState) :
  (recentMetaShare gs 12 = None <-> (length (last_dims gs) < 12)%nat) /\
  match recentMetaShare gs 12 with
  | Some share =>
      share = INR (length (filter (fun d => String.eqb d "META")
                                  (lastn 12 (last_dims gs)))) / 12 /\
      0 <= share <= 1 /\
      (share = 0 <->
       Forall (fun d => d <> "META"%string) (lastn 12 (last_dims gs)))
  | None => True
  end.
Proof.
  unfold recentMetaShare.
  set (dims := lastn 12 (last_dims gs)).
  assert (Hlen : length dims = Nat.min 12 (length (last_dims gs)))
    by apply lastn_length.
  destruct (length dims <? 12)%nat eqn:E.
  - apply Nat.ltb_lt in E; split; [|exact I].
    split; [intros _; lia | reflexivity].
  - apply Nat.ltb_ge in E.
    assert (H12 : length dims = 12%nat) by lia.
    split; [split; [discriminate | lia]|].
    set (k := length (filter (fun d => String.eqb d "META") dims)).
    assert (Hk : (k <= 12)%nat).
    { unfold k; rewrite <- H12; apply count_le_length. }
    assert (HkR : 0 <= INR k <= 12).
    { split; [apply pos_INR|].
      replace 12 with (INR 12) by (simpl; lra); now apply le_INR. }
    rewrite H12; replace (INR 12) with 12 by (simpl; lra).
    split; [reflexivity|]; split; [lra|].
    split.
    + intros Hz.
      assert (INR k = 0) by lra.
      assert (k = 0%nat) by (apply INR_eq; simpl; assumption).
      apply length_zero_iff_nil, filter_nil_iff in H0.
      eapply Forall_impl; [|exact H0].
      intros d Hd; now apply String.eqb_neq.
    + intros Hall.
      assert (Hf : filter (fun d => String.eqb d "META") dims = []).
      { apply filter_nil_iff; eapply Forall_impl; [|exact Hall].
        intros d Hd; now apply String.eqb_neq. }
      unfold k; rewrite Hf; simpl; lra.
Qed.

(** What a change of stage presupposes, for the timing of relaxations. *)
Lemma maybeRelax_inv (gs : GateState) (t : Z) :
  let '(gs', changed, _) := maybeRelaxMetaCapStage gs t in
  if changed then
    (12 <= length (last_dims gs))%nat /\
    stage_num (meta_cap_stage gs') = S (stage_num (meta_cap_stage gs)) /\
    gs' = set_stage gs (meta_cap_stage gs') t /\
    (t - meta_cap_last_change_turn gs
     >= match meta_cap_stage gs with Stage1 => 18 | _ => 12 end)%Z
  else gs' = gs.
Proof.
  pose proof (proj2 (recentMetaShare_range_aux gs)) as Hnone.
  unfold maybeRelaxMetaCapStage.
  destruct (recentMetaShare gs 12) as [share|] eqn:Es; [|reflexivity].
  assert (Hlen : (12 <= length (last_dims gs))%nat).
  { destruct (Nat.lt_ge_cases (length (last_dims gs)) 12) as [H|H]; [|exact H].
    apply (proj1 (recentMetaShare_range_aux gs)) in H; congruence. }
  destruct (_ <? _)%Z eqn:Et; [reflexivity|].
  apply Z.ltb_ge in Et.
  destruct (meta_cap_stage gs) eqn:Est.
  - destruct (leb share 0.25); [|reflexivity].
    repeat split; simpl; try assumption; lia.
  - destruct (leb share 0.17); [|reflexivity].
    repeat split; simpl; try assumption; lia.
  - reflexivity.
Qed.

(** X13: a call of [maybeRelaxMetaCapStage] either reports no change and
    leaves the gate state as it was, or reports a change; a change happens
    only with 12 buffered labels, moves the stage up by exactly one,
    stamps the turn, comes at least 12 turns (18 from stage 1) after the
    previous stamp, and only with a META share of at most 0.25 (0.17 from
    stage 1).  The returned share is the recent META share. *)
Theorem maybeRelaxMetaCapStage_cases (gs : GateState) (t : Z) :
  let '(gs', changed, share) := maybeRelaxMetaCapStage gs t in
  share = recentMetaShare gs 12 /\
  if changed then
    (12 <= length (last_dims gs))%nat /\
    stage_num (meta_cap_stage gs') = S (stage_num (meta_cap_stage gs)) /\
    gs' = set_stage gs (meta_cap_stage gs') t /\
    (t - meta_cap_last_change_turn gs
     >= match meta_cap_stage gs with Stage1 => 18 | _ => 12 end)%Z /\
    exists s, share = Some s /\
              s <= match meta_cap_stage gs with Stage1 => 0.17 | _ => 0.25 end
  else gs' = gs.
Proof.
  pose proof (proj1 (recentMetaShare_range_aux gs)) as Hnone.
  unfold maybeRelaxMetaCapStage.
  destruct (recentMetaShare gs 12) as [share|] eqn:Es; [|split; reflexivity].
  assert (Hlen : (12 <= length (last_dims gs))%nat).
  { destruct (Nat.lt_ge_cases (length (last_dims gs)) 12) as [H|H]; [|exact H].
    apply Hnone in H; discriminate. }
  destruct (_ <? _)%Z eqn:Et; [split; reflexivity|].
  apply Z.ltb_ge in Et.
  destruct (meta_cap_stage gs) eqn:Est.
  - destruct (leb share 0.25) eqn:El; [|split; reflexivity].
    apply leb_true in El; split; [reflexivity|].
    repeat split; simpl; try assumption; try lia; eauto.
  - destruct (leb share 0.17) eqn:El; [|split; reflexivity].
    apply leb_true in El; split; [reflexivity|].
    repeat split; simpl; try assumption; try lia; eauto.
  - split; reflexivity.
Qed.

(** ** The turn handler *)

Lemma lastn_Forall {A} (P : A -> Prop) (n : nat) (xs : list A) :
  Forall P xs -> Forall P (lastn n xs).
Proof.
  intros H; unfold lastn; rewrite <- (firstn_skipn (length xs - n) xs) in H.
  now apply Forall_app in H.
Qed.

Lemma push_truthy_length xs x :
  (length xs <= length (push_truthy xs x) <= S (length xs))%nat.
Proof.
  unfold push_truthy; destruct x as [v|]; [|lia].
  destruct (truthy (Some v)); rewrite ?length_app; simpl; lia.
Qed.

Section HandlerRuns.

Variable parseProbeFields : string -> Fields.
Variable parseCandidates : string -> list ProbeFields.
Variable parsePick : string -> option Z.
Variable fragmentText : option string -> option string -> option string -> string.
Variable makeFragmentKey : option string -> option string -> option string -> string.

Let post := POST parseProbeFields parseCandidates parsePick fragmentText
                 makeFragmentKey.
Let run' := run parseProbeFields parseCandidates parsePick fragmentText
                makeFragmentKey.
Let pulse := explorationPulse parseCandidates parsePick.

(** What a turn whose probe call answered does, field by field. *)
Lemma POST_answered sess inp text lp :
  probe inp = Some (text, lp) ->
  exists g4 eff state triggered top,
    match response (snd (post sess inp)) with
    | Some dbg =>
        main inp <> None /\
        d_state dbg = state /\ d_pulse_triggered dbg = triggered /\
        d_budgets dbg
        = {| b_ctx_keep_msgs := ctx_keep_msgs state;
             b_summary_chars := summary_chars state;
             b_attn_items := attn_items state;
             b_frag_items := frag_items state top;
             b_summary_update_interval := summary_update_interval state;
             b_summary_update_max_tokens := summary_update_max_tokens state;
             b_max_output_tokens := max_output_tokens state triggered;
             b_temperature := temperature state |}
    | None => main inp = None
    end /\
    gate (fst (post sess inp))
      = fst (fst (maybeRelaxMetaCapStage g4 (turn sess + 1))) /\
    turn (fst (post sess inp)) = (turn sess + 1)%Z /\
    attn_log (fst (post sess inp))
      = attnLogUpdate (attn_log sess) (turn sess + 1) eff /\
    candidates_requested (snd (post sess inp))
      = pulseGuard (gate sess) (turn sess + 1) /\
    0 <= state <= 1 /\
    (triggered = true -> pulseGuard (gate sess) (turn sess + 1) = true) /\
    S_stats g4 = snd (baselinePhase (S_stats (gate sess))
                        (meanSurprisal (sliceFirstLine lp 30))) /\
    H_stats g4 = snd (baselinePhase (H_stats (gate sess))
                        (approxEntropy (sliceFirstLine lp 30))) /\
    last_state g4 = state /\
    meta_cap_stage g4 = meta_cap_stage (gate sess) /\
    meta_cap_last_change_turn g4 = meta_cap_last_change_turn (gate sess) /\
    last_dims g4 = shift_while 12 (push_truthy (last_dims (gate sess)) (dim eff)) /\
    last_focus g4
      = shift_while 12 (push_truthy (last_focus (gate sess)) (focus eff)) /\
    last_states g4 = shift_while 12 (last_states (gate sess) ++ [state]) /\
    last_pulse_turn g4
      = (if triggered then (turn sess + 1)%Z else last_pulse_turn (gate sess)).
Proof.
  intros Hp; unfold post, POST; rewrite Hp.
  destruct (baselinePhase (S_stats (gate sess)) _) as [zS stS] eqn:ES.
  destruct (baselinePhase (H_stats (gate sess)) _) as [zH stH] eqn:EH.
  destruct (scorePhase _ zS zH) as [score rawS] eqn:Esc.
  change (pulseGuard (set_baselines (gate sess) stS stH) (turn sess + 1))
    with (pulseGuard (gate sess) (turn sess + 1)).
  destruct (pulseGuard (gate sess) (turn sess + 1)) eqn:Eg.
  - destruct (explorationPulse parseCandidates parsePick inp) as [[c k]|] eqn:Ex.
    + match goal with
      | |- context [maybeRelaxMetaCapStage ?g ?t] =>
          destruct (maybeRelaxMetaCapStage g t) as [[g5 ch] sh] eqn:Er;
          exists g
      end.
      do 4 eexists.
      rewrite Er; simpl.
      split; [destruct (main inp); simpl;
                [split; [discriminate | repeat split; reflexivity]
                | reflexivity]|].
      repeat (split; [reflexivity|]).
      split; [apply hysteresisUpdate_range|].
      repeat (split; [reflexivity|]); reflexivity.
    + match goal with
      | |- context [maybeRelaxMetaCapStage ?g ?t] =>
          destruct (maybeRelaxMetaCapStage g t) as [[g5 ch] sh] eqn:Er;
          exists g
      end.
      do 4 eexists.
      rewrite Er; simpl.
      split; [destruct (main inp); simpl;
                [split; [discriminate | repeat split; reflexivity]
                | reflexivity]|].
      repeat (split; [reflexivity|]).
      split; [apply hysteresisUpdate_range|].
      split; [discriminate|].
      repeat (split; [reflexivity|]); reflexivity.
  - match goal with
    | |- context [maybeRelaxMetaCapStage ?g ?t] =>
        destruct (maybeRelaxMetaCapStage g t) as [[g5 ch] sh] eqn:Er;
        exists g
    end.
    do 4 eexists.
    rewrite Er; simpl.
    split; [destruct (main inp); simpl;
              [split; [discriminate | repeat split; reflexivity]
              | reflexivity]|].
    repeat (split; [reflexivity|]).
    split; [apply hysteresisUpdate_range|].
    split; [discriminate|].
    repeat (split; [reflexivity|]); reflexivity.
Qed.

Lemma POST_failed sess inp :
  probe inp = None ->
  post sess inp
  = (mkSession (gate sess) (attn_log sess) (fragments sess) (turn sess + 1),
     mkOutcome false None).
Proof. intros Hp; unfold post, POST; now rewrite Hp. Qed.

Lemma budgets_in_range (s top : R) (fired : bool) :
  0 <= s <= 1 ->
  (4 <= ctx_keep_msgs s <= 18)%Z /\
  (0 <= summary_chars s <= 220)%Z /\
  (0 <= attn_items s <= 10)%Z /\
  (0 <= frag_items s top <= 10)%Z /\
  (1 <= summary_update_interval s <= 18)%Z /\
  (20 <= summary_update_max_tokens s <= 120)%Z /\
  (60 <= max_output_tokens s fired <= 520)%Z /\
  0.05 <= temperature s <= 0.70.
Proof.
  intros Hs.
  assert (Hmain : (60 <= round (lerp 60 520 s) <= 520)%Z).
  { apply round_range; apply lerp_range_up; lra. }
  assert (Hfrag : (0 <= clampZ 0 10 (round (lerp 0 10 (smoothstep 0.20 0.86 s)))
                   <= 10)%Z) by (apply clampZ_range; lia).
  split; [apply clampZ_range; lia|].
  split; [apply round_range, lerp_range_up; [lra | apply smoothstep_range]|].
  split; [apply clampZ_range; lia|].
  split; [unfold frag_items; destruct (_ && _); lia|].
  split; [apply clampZ_range; lia|].
  split; [apply clampZ_range; lia|].
  split; [unfold max_output_tokens; destruct fired; lia|].
  unfold temperature; rewrite clamp_id; unfold lerp; lra.
Qed.

Lemma lastn_snoc_last {A} (n : nat) (xs : list A) (x d : A) :
  (1 <= n)%nat -> last (lastn n (xs ++ [x])) d = x.
Proof.
  intros Hn; unfold lastn; rewrite length_app, skipn_app; simpl.
  replace (length xs + 1 - n - length xs)%nat with 0%nat by lia.
  simpl; apply last_last.
Qed.

(** X14: every turn whose probe call answered computes a state in [0,1]
    and stores it as [last_state] and as the newest buffered state,
    whatever the session held before and whether or not the main
    completion call then answers.  The handler returns a payload exactly
    when the main call answered; the payload carries the stored state and
    budgets inside their ranges (context 4..18, summary characters
    0..220, attention items 0..10, fragment items 0..10, summary interval
    1..18, summary tokens 20..120, response tokens 60..520, temperature
    0.05..0.70), and when it reports a triggered pulse the candidates were
    requested, the turn is stamped as [last_pulse_turn] and at least 120
    response tokens are granted; without a triggered pulse
    [last_pulse_turn] is unchanged. *)
Theorem answered_turn_outputs sess inp text lp :
  probe inp = Some (text, lp) ->
  exists state,
    0 <= state <= 1 /\
    last_state (gate (fst (post sess inp))) = state /\
    last (last_states (gate (fst (post sess inp)))) 0 = state /\
    match response (snd (post sess inp)) with
    | None => main inp = None
    | Some dbg =>
        main inp <> None /\
        d_state dbg = state /\
        (4 <= b_ctx_keep_msgs (d_budgets dbg) <= 18)%Z /\
        (0 <= b_summary_chars (d_budgets dbg) <= 220)%Z /\
        (0 <= b_attn_items (d_budgets dbg) <= 10)%Z /\
        (0 <= b_frag_items (d_budgets dbg) <= 10)%Z /\
        (1 <= b_summary_update_interval (d_budgets dbg) <= 18)%Z /\
        (20 <= b_summary_update_max_tokens (d_budgets dbg) <= 120)%Z /\
        (60 <= b_max_output_tokens (d_budgets dbg) <= 520)%Z /\
        0.05 <= b_temperature (d_budgets dbg) <= 0.70 /\
        (if d_pulse_triggered dbg
         then candidates_requested (snd (post sess inp)) = true /\
              (120 <= b_max_output_tokens (d_budgets dbg))%Z /\
              last_pulse_turn (gate (fst (post sess inp))) = (turn sess + 1)%Z
         else last_pulse_turn (gate (fst (post sess inp)))
              = last_pulse_turn (gate sess))
    end.
Proof.
  intros Hp.
  destruct (POST_answered sess inp text lp Hp)
    as (g4 & eff & state & trig & top & Hresp & Hg & Ht & Hlog & Hreq
        & Hr & Himp & _ & _ & Hls & _ & _ & _ & _ & Hlss & Hlp).
  destruct (gate_fields_relax g4 (turn sess + 1))
    as (_ & _ & R3 & _ & _ & R6 & R7).
  cbv zeta in R3, R6, R7; rewrite <- Hg in R3, R6, R7.
  destruct (budgets_in_range state top trig Hr)
    as (B1 & B2 & B3 & B4 & B5 & B6 & B7 & B8).
  exists state.
  split; [assumption|]; split; [congruence|].
  split.
  { rewrite R6, Hlss, shift_while_lastn; apply lastn_snoc_last; lia. }
  destruct (response (snd (post sess inp))) as [dbg|]; [|exact Hresp].
  destruct Hresp as (Hm & Hst & Htr & Hb).
  rewrite Hb, Htr, Hreq; simpl.
  split; [assumption|]; split; [assumption|].
  repeat (split; [assumption|]).
  rewrite R7, Hlp; destruct trig; [|reflexivity].
  split; [now apply Himp|]; split; [|reflexivity].
  unfold max_output_tokens; lia.
Qed.

Lemma attnLogUpdate_length log t eff :
  (length log <= 30)%nat -> (length (attnLogUpdate log t eff) <= 30)%nat.
Proof.
  intros H; unfold attnLogUpdate.
  destruct (dim eff), (focus eff); try assumption.
  destruct (_ && _); [apply shift_while_length | assumption].
Qed.

Lemma POST_session_bounds sess inp :
  session_bounds sess -> session_bounds (fst (post sess inp)).
Proof.
  intros (B1 & B2 & B3 & B4 & B5 & B6).
  destruct (probe inp) as [[text lp]|] eqn:Hp;
    [|rewrite (POST_failed sess inp Hp); unfold session_bounds; simpl; tauto].
  destruct (POST_answered sess inp text lp Hp)
    as (g4 & eff & state & trig & top & _ & Hg & Ht & Hlog & _
        & Hr & Himp & _ & _ & Hls & _ & _ & Hld & Hlf & Hlss & Hlp).
  destruct (gate_fields_relax g4 (turn sess + 1))
    as (_ & _ & R3 & R4 & R5 & R6 & _).
  cbv zeta in R3, R4, R5, R6; rewrite <- Hg in R3, R4, R5, R6.
  unfold session_bounds; rewrite R3, R4, R5, R6, Hls, Hld, Hlf, Hlss, Hlog.
  split; [assumption|]; split.
  { rewrite shift_while_lastn; apply lastn_Forall, Forall_app.
    split; [assumption | now constructor]. }
  repeat split; try apply shift_while_length.
  now apply attnLogUpdate_length.
Qed.

(** X15: the bounds of the data model hold throughout a session.  A fresh
    session satisfies them, and from any session that does, every run of
    turns (answered or failed) ends in a session whose [last_state] and
    buffered states lie in [0,1], whose three stagnation buffers hold at
    most 12 entries and whose attention log holds at most 30. *)
Theorem session_bounds_invariant :
  session_bounds getSession_new /\
  (forall sess inps, session_bounds sess -> session_bounds (run' sess inps)).
Proof.
  split.
  - unfold session_bounds, getSession_new; simpl.
    repeat split; try lia; try lra; constructor.
  - intros sess inps; revert sess; unfold run'.
    induction inps as [|inp rest IH]; intros sess Hs; simpl; [assumption|].
    apply IH, POST_session_bounds, Hs.
Qed.

Lemma POST_turn sess inp : turn (fst (post sess inp)) = (turn sess + 1)%Z.
Proof.
  destruct (probe inp) as [[text lp]|] eqn:Hp.
  - destruct (POST_answered sess inp text lp Hp)
      as (? & ? & ? & ? & ? & _ & _ & Ht & _); exact Ht.
  - now rewrite (POST_failed sess inp Hp).
Qed.

Lemma run_turn inps : forall sess,
  turn (run' sess inps) = (turn sess + Z.of_nat (length inps))%Z.
Proof.
  unfold run'; induction inps as [|inp rest IH]; intros sess; simpl length.
  - simpl; lia.
  - cbn [run]; rewrite IH; fold post; rewrite POST_turn; lia.
Qed.

(** The turn counter counts requests.  After any run of turns it has
    advanced by the number of turns, failed ones included; a turn whose
    probe call throws changes nothing else in the session and returns no
    debug record. *)
Lemma turn_counter_counts_requests :
  (forall sess inps,
     turn (run' sess inps) = (turn sess + Z.of_nat (length inps))%Z) /\
  (forall sess inp,
     probe inp = None ->
     snd (post sess inp) = mkOutcome false None /\
     gate (fst (post sess inp)) = gate sess /\
     attn_log (fst (post sess inp)) = attn_log sess /\
     fragments (fst (post sess inp)) = fragments sess /\
     turn (fst (post sess inp)) = (turn sess + 1)%Z).
Proof.
  split; [intros sess inps; apply run_turn|].
  intros sess inp Hp; rewrite (POST_failed sess inp Hp); simpl; tauto.
Qed.

Lemma pulseGuard_short gs t :
  (length (last_states gs) < 8)%nat -> pulseGuard gs t = false.
Proof.
  intros H; unfold pulseGuard, shouldExplorationPulse.
  apply Nat.ltb_lt in H; now rewrite H.
Qed.

Lemma pulseGuard_cooldown gs t :
  (t - last_pulse_turn gs < 6)%Z -> pulseGuard gs t = false.
Proof.
  intros H; unfold pulseGuard.
  assert (E : (6 <=? t - last_pulse_turn gs)%Z = false) by (apply Z.leb_gt; lia).
  rewrite E; now destruct (shouldExplorationPulse gs).
Qed.

Lemma POST_attempt_false sess inp :
  pulseGuard (gate sess) (turn sess + 1) = false ->
  candidates_requested (snd (post sess inp)) = false /\
  last_pulse_turn (gate (fst (post sess inp))) = last_pulse_turn (gate sess).
Proof.
  intros Hg.
  destruct (probe inp) as [[text lp]|] eqn:Hp;
    [|rewrite (POST_failed sess inp Hp); simpl; split; reflexivity].
  destruct (POST_answered sess inp text lp Hp)
    as (g4 & eff & state & trig & top & _ & Hgate & _ & _ & Hreq
        & _ & Himp & _ & _ & _ & _ & _ & _ & _ & _ & Hlp).
  destruct (gate_fields_relax g4 (turn sess + 1)) as (_ & _ & _ & _ & _ & _ & R7).
  cbv zeta in R7; rewrite <- Hgate in R7.
  split.
  - now rewrite Hreq.
  - rewrite R7, Hlp; destruct trig; [|reflexivity].
    rewrite Himp in Hg by reflexivity; discriminate.
Qed.

Lemma POST_states_length sess inp :
  (length (last_states (gate (fst (post sess inp))))
   <= S (length (last_states (gate sess))))%nat /\
  (length (last_dims (gate (fst (post sess inp))))
   <= S (length (last_dims (gate sess))))%nat.
Proof.
  destruct (probe inp) as [[text lp]|] eqn:Hp;
    [|rewrite (POST_failed sess inp Hp); simpl; lia].
  destruct (POST_answered sess inp text lp Hp)
    as (g4 & eff & state & trig & top & _ & Hgate & _ & _ & _
        & _ & _ & _ & _ & _ & _ & _ & Hld & _ & Hlss & _).
  destruct (gate_fields_relax g4 (turn sess + 1)) as (_ & _ & _ & R4 & _ & R6 & _).
  cbv zeta in R4, R6; rewrite <- Hgate in R4, R6.
  rewrite R4, R6, Hld, Hlss, !shift_while_lastn, !lastn_length, length_app.
  pose proof (push_truthy_length (last_dims (gate sess)) (dim eff)).
  cbn [length]; lia.
Qed.

Lemma run_states_length inps : forall sess,
  (length (last_states (gate (run' sess inps)))
   <= length (last_states (gate sess)) + length inps)%nat.
Proof.
  unfold run'; induction inps as [|inp rest IH]; intros sess; simpl; [lia|].
  etransitivity; [apply IH|].
  pose proof (proj1 (POST_states_length sess inp)); fold post; lia.
Qed.

(** X16: the exploration pulse needs history.  While the state buffer and
    the turns run since hold fewer than 8 entries together, the candidates
    are not requested; so a fresh session makes no pulse attempt during
    its first 8 turns. *)
Theorem no_pulse_before_eight_turns sess inps inp :
  (length (last_states (gate sess)) + length inps < 8)%nat ->
  candidates_requested (snd (post (run' sess inps) inp)) = false.
Proof.
  intros H; apply POST_attempt_false, pulseGuard_short.
  pose proof (run_states_length inps sess); lia.
Qed.

(** X17: the cooldown.  When the turn counter is [d] past the last pulse,
    the next [5 - d] turns request no candidates; after a triggered pulse
    ([d = 0]) that is the next five turns, whatever the probes say. *)
Theorem pulse_cooldown inps : forall sess inp,
  (turn sess - last_pulse_turn (gate sess) + Z.of_nat (length inps) < 5)%Z ->
  candidates_requested (snd (post (run' sess inps) inp)) = false.
Proof.
  unfold run'; induction inps as [|i rest IH]; intros sess inp H.
  - simpl in *; apply POST_attempt_false, pulseGuard_cooldown; lia.
  - cbn [run]; apply IH.
    assert (Hg : pulseGuard (gate sess) (turn sess + 1) = false)
      by (apply pulseGuard_cooldown; simpl length in H; lia).
    destruct (POST_attempt_false sess i Hg) as [_ Hl].
    fold post; rewrite Hl, POST_turn; simpl length in H; lia.
Qed.

Lemma POST_relax_timing sess inp :
  let ok s :=
    (Z.of_nat (length (last_dims (gate s))) <= turn s)%Z /\
    match meta_cap_stage (gate s) with
    | Stage0 => True
    | Stage1 => (12 <= meta_cap_last_change_turn (gate s) <= turn s)%Z
    | Stage2 => (30 <= turn s)%Z
    end in
  ok sess -> ok (fst (post sess inp)).
Proof.
  intros ok [Hd Hs]; unfold ok.
  destruct (probe inp) as [[text lp]|] eqn:Hp.
  2:{ rewrite (POST_failed sess inp Hp); simpl; split; [lia|].
      destruct (meta_cap_stage (gate sess)); [exact I | lia | lia]. }
  pose proof (proj2 (POST_states_length sess inp)) as Hlen.
  destruct (POST_answered sess inp text lp Hp)
    as (g4 & eff & state & trig & top & _ & Hgate & Ht & _ & _
        & _ & _ & _ & _ & _ & Hst & Hlct & Hld & _ & _ & _).
  destruct (gate_fields_relax g4 (turn sess + 1)) as (_ & _ & _ & R4 & _).
  cbv zeta in R4; rewrite <- Hgate in R4.
  rewrite Ht; split; [lia|].
  pose proof (maybeRelax_inv g4 (turn sess + 1)) as Hr.
  rewrite Hgate.
  destruct (maybeRelaxMetaCapStage g4 (turn sess + 1)) as [[g5 ch] sh].
  cbn [fst].
  destruct ch.
  - destruct Hr as (H12 & Hnum & Hset & Hint).
    rewrite Hst, Hlct in *.
    assert (Hd4 : (Z.of_nat (length (last_dims g4)) <= turn sess + 1)%Z).
    { rewrite <- R4; lia. }
    assert (Hl5 : meta_cap_last_change_turn g5 = (turn sess + 1)%Z)
      by (rewrite Hset; reflexivity).
    rewrite Hl5.
    destruct (meta_cap_stage (gate sess)); destruct (meta_cap_stage g5);
      simpl in Hnum; try discriminate; try exact I; lia.
  - subst g5; rewrite Hst, Hlct.
    destruct (meta_cap_stage (gate sess)); [exact I | lia | lia].
Qed.

(** X18: the META cap relaxes slowly.  In a fresh session the cap cannot
    reach stage 1 (0.65) before turn 12, nor stage 2 (no cap) before turn
    30, whatever the probes say. *)
Theorem meta_cap_relaxes_slowly (inps : list TurnInput) :
  match meta_cap_stage (gate (run' getSession_new inps)) with
  | Stage0 => True
  | Stage1 => (12 <= length inps)%nat
  | Stage2 => (30 <= length inps)%nat
  end.
Proof.
  assert (Hrun : forall inps sess,
             ((Z.of_nat (length (last_dims (gate sess))) <= turn sess)%Z /\
              match meta_cap_stage (gate sess) with
              | Stage0 => True
              | Stage1 => (12 <= meta_cap_last_change_turn (gate sess) <= turn sess)%Z
              | Stage2 => (30 <= turn sess)%Z
              end) ->
             match meta_cap_stage (gate (run' sess inps)) with
             | Stage0 => True
             | Stage1 => (12 <= turn (run' sess inps))%Z
             | Stage2 => (30 <= turn (run' sess inps))%Z
             end).
  { unfold run'; induction inps0 as [|i rest IH]; intros sess Hok.
    - simpl; destruct Hok as [_ Hs].
      destruct (meta_cap_stage (gate sess)); [exact I | lia | lia].
    - cbn [run]; apply IH, (POST_relax_timing sess i), Hok. }
  specialize (Hrun inps getSession_new).
  rewrite run_turn in Hrun; simpl in Hrun.
  destruct (meta_cap_stage (gate (run' getSession_new inps)));
    [exact I | |]; (assert (Hok : (0 <= 0)%Z /\ True) by (split; [lia | exact I]);
                    specialize (Hrun Hok); lia).
Qed.

Lemma slice_Forall (P : TokenLogprob -> Prop) lp n :
  Forall P lp -> Forall P (sliceFirstLine lp n).
Proof.
  intros H.
  destruct (sliceFirstLine_from_spec n lp 0) as (rest & Heq & _).
  fold (sliceFirstLine lp n) in Heq; rewrite Heq in H.
  now apply Forall_app in H.
Qed.

(** X19: stale baselines persist.  On an answered turn the surprisal
    baseline is left as it was when the probe carries no token
    log-probabilities, and the entropy baseline whenever no token carries
    top-k alternatives; with at least one token the surprisal baseline
    takes the inline step for the mean surprisal of the first line. *)
Theorem baselines_update_only_with_signal sess inp text lp :
  probe inp = Some (text, lp) ->
  (lp = [] ->
     S_stats (gate (fst (post sess inp))) = S_stats (gate sess) /\
     H_stats (gate (fst (post sess inp))) = H_stats (gate sess)) /\
  (Forall (fun t => top_logprobs t = None \/ top_logprobs t = Some []) lp ->
     H_stats (gate (fst (post sess inp))) = H_stats (gate sess)) /\
  (lp <> [] ->
     exists x, meanSurprisal (sliceFirstLine lp 30) = Some x /\
               S_stats (gate (fst (post sess inp)))
               = snd (baselineStep (S_stats (gate sess)) x)).
Proof.
  intros Hp.
  destruct (POST_answered sess inp text lp Hp)
    as (g4 & eff & state & trig & top & _ & Hgate & _ & _ & _
        & _ & _ & HS & HH & _).
  destruct (gate_fields_relax g4 (turn sess + 1)) as (R1 & R2 & _).
  cbv zeta in R1, R2; rewrite <- Hgate in R1, R2.
  rewrite R1, R2, HS, HH.
  assert (Hnone : Forall (fun t => top_logprobs t = None \/ top_logprobs t = Some []) lp ->
                  approxEntropy (sliceFirstLine lp 30) = None).
  { intros Hall; rewrite approxEntropy_average; unfold average_entropy.
    apply (slice_Forall _ lp 30), no_carrier_iff in Hall; now rewrite Hall. }
  split; [|split].
  - intros ->; split; reflexivity.
  - intros Hall; now rewrite (Hnone Hall).
  - intros Hne; destruct lp as [|t ts]; [contradiction|].
    destruct (sliceFirstLine (t :: ts) 30) as [|u us] eqn:Esl;
      [unfold sliceFirstLine in Esl; simpl in Esl; discriminate|].
    unfold meanSurprisal; eexists; split; [reflexivity|].
    unfold baselinePhase; now destruct (baselineStep _ _).
Qed.

(** X20: what the exploration pulse can yield.  A selection is always one
    of the parsed candidates, at the 1-based index it reports, which is
    the verifier's pick clamped to the number of candidates, or 1 when the
    pick cannot be parsed; it needs both service calls to answer and at
    least two candidates.  No selection means exactly that the exploration
    call threw, fewer than two candidates parsed, or the verification
    call threw. *)
Theorem explorationPulse_cases (inp : TurnInput) :
  match pulse inp with
  | Some (c, k) =>
      exists text pickText,
        explore inp = Some text /\ verify inp = Some pickText /\
        (2 <= length (parseCandidates text))%nat /\
        (1 <= k <= Z.of_nat (length (parseCandidates text)))%Z /\
        nth_error (parseCandidates text) (Z.to_nat (k - 1)) = Some c /\
        k = clampZ 1 (Z.of_nat (length (parseCandidates text)))
                   (match parsePick pickText with Some p => p | None => 1%Z end)
  | None =>
      explore inp = None \/
      exists text, explore inp = Some text /\
                   ((length (parseCandidates text) < 2)%nat \/ verify inp = None)
  end.
Proof.
  unfold pulse, explorationPulse.
  destruct (explore inp) as [text|]; [|now left].
  destruct (2 <=? length (parseCandidates text))%nat eqn:E2.
  2:{ apply Nat.leb_gt in E2; right; exists text; split; [reflexivity | now left]. }
  apply Nat.leb_le in E2.
  destruct (verify inp) as [pickText|];
    [|right; exists text; split; [reflexivity | now right]].
  set (pick := match parsePick pickText with Some p => p | None => 1%Z end).
  set (n := length (parseCandidates text)) in *.
  assert (Hk : (1 <= clampZ 1 (Z.of_nat n) pick <= Z.of_nat n)%Z)
    by (apply clampZ_range; lia).
  destruct (nth_error (parseCandidates text)
                      (Z.to_nat (clampZ 1 (Z.of_nat n) pick - 1))) as [c|] eqn:En.
  - exists text, pickText.
    replace (clampZ 1 (Z.of_nat n) pick - 1 + 1)%Z
      with (clampZ 1 (Z.of_nat n) pick) by lia.
    replace (clampZ 1 (Z.of_nat n) pick - 1 + 1 - 1)%Z
      with (clampZ 1 (Z.of_nat n) pick - 1)%Z by lia.
    repeat split; try assumption; try lia; reflexivity.
  - apply nth_error_None in En; fold n in En; lia.
Qed.

End HandlerRuns.

(** ** Fragment memory, operation by operation *)

Lemma insert_by_salience_perm a xs :
  Permutation (insert_by_salience a xs) (a :: xs).
Proof.
  induction xs as [|b xs IH]; simpl; [reflexivity|].
  destruct (ltb _ _); [|reflexivity].
  rewrite IH; apply perm_swap.
Qed.

Lemma sort_by_salience_perm xs : Permutation (sort_by_salience xs) xs.
Proof.
  induction xs as [|a xs IH]; simpl; [reflexivity|].
  rewrite insert_by_salience_perm; now constructor.
Qed.

Lemma sort_by_salience_sorted xs : descending xs -> sort_by_salience xs = xs.
Proof.
  unfold descending; induction 1 as [|a xs Hs IH Ha]; simpl; [reflexivity|].
  rewrite IH; destruct xs as [|b xs']; simpl; [reflexivity|].
  inversion Ha as [|? ? Hb _]; subst.
  assert (E : ltb (f_salience a) (f_salience b) = false) by (apply ltb_false; lra).
  now rewrite E.
Qed.

Lemma descending_firstn n xs : descending xs -> descending (firstn n xs).
Proof.
  unfold descending; revert xs; induction n as [|n IH]; intros xs Hs; simpl.
  - constructor.
  - destruct xs as [|a xs]; [constructor|].
    inversion Hs as [|? ? Hxs Ha]; subst; constructor; [now apply IH|].
    rewrite Forall_forall in *; intros g Hg; apply Ha; now apply In_firstn in Hg.
Qed.

Lemma descending_split n xs :
  descending xs ->
  Forall (fun d => Forall (fun g => f_salience d <= f_salience g) (firstn n xs))
         (skipn n xs).
Proof.
  unfold descending; revert xs; induction n as [|n IH]; intros xs Hs; simpl.
  - apply Forall_forall; intros; constructor.
  - destruct xs as [|a xs]; [constructor|].
    inversion Hs as [|? ? Hxs Ha]; subst.
    specialize (IH xs Hxs).
    rewrite Forall_forall in *; intros d Hd; constructor; [|now apply IH].
    apply Ha; rewrite <- (firstn_skipn n xs); apply in_or_app; now right.
Qed.

Lemma NoDup_map_filter {A B} (f : A -> B) (p : A -> bool) (xs : list A) :
  NoDup (map f xs) -> NoDup (map f (filter p xs)).
Proof.
  induction xs as [|x xs IH]; simpl; intros H; [constructor|].
  inversion H as [|? ? Hn Hd]; subst.
  destruct (p x); simpl; [|now apply IH].
  constructor; [|now apply IH].
  intros Hin; apply Hn; apply in_map_iff in Hin.
  destruct Hin as (y & Hy & Hyin); apply filter_In in Hyin.
  apply in_map_iff; exists y; tauto.
Qed.

Lemma NoDup_map_firstn {A B} (f : A -> B) (n : nat) (xs : list A) :
  NoDup (map f xs) -> NoDup (map f (firstn n xs)).
Proof.
  intros H; rewrite <- (firstn_skipn n xs), map_app in H.
  now apply NoDup_app_remove_r in H.
Qed.

Lemma filter_all {A} (p : A -> bool) (xs : list A) :
  Forall (fun x => p x = true) xs -> filter p xs = xs.
Proof.
  induction 1 as [|x xs Hx _ IH]; simpl; [reflexivity|].
  now rewrite Hx, IH.
Qed.

(** X21: the decay factor lies in [0.55, 0.93] for every state, is
    non-decreasing in the state, and reaches 0.55 at state 0 and below and
    0.93 at state 1 and above. *)
Theorem salienceDecayFactor_range (s1 s2 : R) :
  0.55 <= salienceDecayFactor s1 <= 0.93 /\
  (s1 <= s2 -> salienceDecayFactor s1 <= salienceDecayFactor s2) /\
  (s1 <= 0 -> salienceDecayFactor s1 = 0.55) /\
  (1 <= s1 -> salienceDecayFactor s1 = 0.93).
Proof.
  unfold salienceDecayFactor; fold (powEase s1 0.9); fold (powEase s2 0.9).
  pose proof (powEase_range s1 0.9) as Hr.
  split; [apply lerp_range_up; [lra | apply Hr; lra]|].
  split; [intros H; apply lerp_mono_up; [lra | apply powEase_mono; lra]|].
  split; intros H; unfold powEase, lerp.
  - replace (clamp01 s1) with 0
      by (unfold clamp01, clamp, Rmax, Rmin; repeat destruct (Rle_dec _ _); lra).
    unfold Math_pow; destruct (Req_dec_T 0 0); lra.
  - replace (clamp01 s1) with 1
      by (unfold clamp01, clamp, Rmax, Rmin; repeat destruct (Rle_dec _ _); lra).
    unfold Math_pow; destruct (Req_dec_T 1 0); [lra|].
    unfold Rpower; rewrite ln_1, Rmult_0_r, exp_0; lra.
Qed.

Lemma salienceDecayFactor_range_witness :
  salienceDecayFactor 0.2 <= salienceDecayFactor 0.7 /\
  salienceDecayFactor 2 = 0.93.
Proof.
  split.
  - apply (proj1 (proj2 (salienceDecayFactor_range 0.2 0.7))); lra.
  - apply (proj2 (proj2 (proj2 (salienceDecayFactor_range 2 0)))); lra.
Defined.

Lemma decay_factor_bounds s : 0.55 <= salienceDecayFactor s <= 0.93.
Proof.
  unfold salienceDecayFactor; fold (powEase s 0.9).
  apply lerp_range_up; [lra | apply powEase_range; lra].
Qed.

(** X22: decay of a bank whose saliences lie in [0, 1.2] multiplies every
    salience by the returned factor (the clamp is idle), so no salience
    grows and none drops below 0.55 of its value; keys, ids, texts and the
    order of the array are untouched, and a bank ranked by salience stays
    ranked. *)
Theorem decayFragments_scales (frags : list MemoryFragment) (state : R) :
  Forall (fun f => 0 <= f_salience f <= 1.2) frags ->
  snd (decayFragments frags state) = salienceDecayFactor state /\
  fst (decayFragments frags state)
  = map (fun f => set_salience f (f_salience f * salienceDecayFactor state))
        frags /\
  Forall2 (fun f g => f_salience g <= f_salience f /\
                      0.55 * f_salience f <= f_salience g /\
                      f_key g = f_key f /\ f_id g = f_id f /\
                      f_text g = f_text f /\ f_turn g = f_turn f)
          frags (fst (decayFragments frags state)) /\
  (descending frags -> descending (fst (decayFragments frags state))).
Proof.
  intros Hall; pose proof (decay_factor_bounds state) as Hf.
  set (k := salienceDecayFactor state) in *.
  assert (E : fst (decayFragments frags state)
              = map (fun f => set_salience f (f_salience f * k)) frags).
  { unfold decayFragments; cbn [fst]; fold k.
    apply map_ext_in; intros f Hin; f_equal.
    rewrite Forall_forall in Hall; specialize (Hall f Hin).
    apply clamp_id; nra. }
  split; [reflexivity|]; split; [exact E|]; rewrite E; split.
  - clear E; induction Hall as [|f fs Hf0 _ IH]; simpl; constructor; [|exact IH].
    simpl; repeat split; nra.
  - unfold descending; clear E Hall.
    induction 1 as [|a xs Hs IH Ha]; simpl; constructor; [exact IH|].
    rewrite Forall_forall in *; intros g Hg.
    apply in_map_iff in Hg; destruct Hg as (b & <- & Hb); simpl.
    specialize (Ha b Hb); nra.
Qed.

Lemma decayFragments_scales_witness :
  fst (decayFragments [note_risk; note_goal] 0.3)
  = map (fun f => set_salience f (f_salience f * salienceDecayFactor 0.3))
        [note_risk; note_goal].
Proof.
  apply (decayFragments_scales [note_risk; note_goal] 0.3).
  repeat constructor; simpl; lra.
Defined.

Lemma find_merge_first frags incoming existing :
  find_key (i_key incoming) frags = Some existing ->
  find_key (i_key incoming) (merge_first frags incoming)
  = Some (merge_into existing incoming).
Proof.
  unfold find_key; induction frags as [|f fs IH]; simpl; [discriminate|].
  destruct (String.eqb (f_key f) (i_key incoming)) eqn:E; simpl.
  - intros H; injection H as <-; simpl; now rewrite E.
  - intros H; rewrite E; now apply IH.
Qed.

Lemma find_key_app_new key frags g :
  find_key key frags = None -> f_key g = key ->
  find_key key (frags ++ [g]) = Some g.
Proof.
  unfold find_key; induction frags as [|f fs IH]; simpl; intros Hn Hk.
  - rewrite Hk, String.eqb_refl; reflexivity.
  - destruct (String.eqb (f_key f) key); [discriminate | now apply IH].
Qed.

(** X23: upsert then look up.  After [upsertFragment], for any bank, the
    lookup of the incoming key finds a fragment that carries the incoming
    text, dimension, focus and turn and whose id is the one reported;
    the result reports exactly one of [added] and [merged], and the array
    grows by one when it added and keeps its length when it merged. *)
Theorem upsert_then_lookup
    (frags : list MemoryFragment) (incoming : IncomingFragment) (new_id : string) :
  let frags' := fst (upsertFragment frags incoming new_id) in
  let res := snd (upsertFragment frags incoming new_id) in
  exists m,
    find_key (i_key incoming) frags' = Some m /\
    f_key m = i_key incoming /\
    f_text m = i_text incoming /\ f_dim m = i_dim incoming /\
    f_focus m = i_focus incoming /\ f_turn m = i_turn incoming /\
    f_id m = frag_id res /\
    merged res = negb (added res) /\
    match find_key (i_key incoming) frags with
    | None =>
        added res = true /\ frag_id res = new_id /\
        frags' = frags ++ [m] /\ f_salience m = i_salience incoming /\
        f_last_used_turn m = (-999)%Z
    | Some existing =>
        added res = false /\ frag_id res = f_id existing /\
        length frags' = length frags /\
        f_last_used_turn m = f_last_used_turn existing
    end.
Proof.
  intros frags' res; unfold frags', res, upsertFragment.
  fold (find_key (i_key incoming) frags).
  destruct (find_key (i_key incoming) frags) as [existing|] eqn:Ef; cbn [fst snd].
  - exists (merge_into existing incoming).
    split; [now apply find_merge_first|].
    assert (Hk : f_key existing = i_key incoming).
    { unfold find_key in Ef; apply find_some in Ef.
      now apply String.eqb_eq, Ef. }
    simpl; repeat (split; [reflexivity || assumption|]).
    split; [|reflexivity].
    now rewrite <- (length_map f_key), merge_first_keys, length_map.
  - eexists; split; [apply find_key_app_new; [assumption | reflexivity]|].
    simpl; repeat (split; [reflexivity|]); reflexivity.
Qed.

Lemma upsert_keys_NoDup frags incoming new_id :
  NoDup (map f_key frags) ->
  NoDup (map f_key (fst (upsertFragment frags incoming new_id))).
Proof.
  intros Hnd; unfold upsertFragment.
  destruct (find _ frags) as [existing|] eqn:Ef; cbn [fst].
  - now rewrite merge_first_keys.
  - rewrite map_app; simpl.
    apply NoDup_app; [assumption | repeat constructor; intros [] |].
    intros k Hk [<-|[]].
    apply in_map_iff in Hk; destruct Hk as (f & Hfk & Hf).
    apply (find_none _ _ Ef) in Hf; apply String.eqb_neq in Hf; congruence.
Qed.

Lemma merge_first_salience frags incoming :
  Forall (fun f => 0 <= f_salience f <= 1.2) frags ->
  Forall (fun f => 0 <= f_salience f <= 1.2) (merge_first frags incoming).
Proof.
  induction 1 as [|f fs Hf Hfs IH]; simpl; [constructor|].
  destruct (String.eqb _ _); constructor; try assumption.
  simpl; apply clamp_range; lra.
Qed.

(** X24: [upsertFragment] keeps the bank keyed.  If the keys of the bank
    are pairwise distinct they still are afterwards, whether the incoming
    key was new or not; and with saliences in [0, 1.2] before and an
    incoming salience in [0, 1.2], all saliences are in [0, 1.2]
    afterwards. *)
Theorem upsert_keeps_bank_keyed
    (frags : list MemoryFragment) (incoming : IncomingFragment) (new_id : string) :
  NoDup (map f_key frags) ->
  Forall (fun f => 0 <= f_salience f <= 1.2) frags ->
  0 <= i_salience incoming <= 1.2 ->
  NoDup (map f_key (fst (upsertFragment frags incoming new_id))) /\
  Forall (fun f => 0 <= f_salience f <= 1.2)
         (fst (upsertFragment frags incoming new_id)).
Proof.
  intros Hnd Hsal Hinc; split; [now apply upsert_keys_NoDup|].
  unfold upsertFragment; destruct (find _ frags) as [existing|]; cbn [fst].
  - now apply merge_first_salience.
  - apply Forall_app; split; [assumption|].
    constructor; [simpl; lra | constructor].
Qed.

Lemma upsert_keeps_bank_keyed_witness :
  NoDup (map f_key (fst (upsertFragment [note_risk; note_goal] incoming_goal
                                        "f_3_000000"))).
Proof.
  apply (upsert_keeps_bank_keyed [note_risk; note_goal] incoming_goal "f_3_000000").
  - simpl; constructor; [|constructor; [|constructor]]; simpl.
    + intros [H|[]]; discriminate H.
    + tauto.
  - repeat constructor; simpl; lra.
  - simpl; lra.
Defined.

Lemma prune_kept_descending frags t n :
  descending (pruneFragments frags t n).
Proof.
  unfold pruneFragments; apply descending_firstn, sort_by_salience_descending.
Qed.

(** X25: [pruneFragments] keeps the most salient.  The result is ranked by
    salience, highest first; together with the fragments cut by the cap it
    is a rearrangement of the fragments that passed the age-and-salience
    filter, and no fragment cut by the cap is more salient than a fragment
    that was kept. *)
Theorem prune_keeps_most_salient
    (frags : list MemoryFragment) (t : Z) (maxKeep : nat) :
  let eligible :=
    filter (fun f => negb (ltb (f_salience f) 0.06 && (8 <? t - f_turn f)%Z))
           frags in
  descending (pruneFragments frags t maxKeep) /\
  length (pruneFragments frags t maxKeep) = Nat.min maxKeep (length eligible) /\
  exists cut,
    Permutation (pruneFragments frags t maxKeep ++ cut) eligible /\
    Forall (fun d => Forall (fun g => f_salience d <= f_salience g)
                            (pruneFragments frags t maxKeep))
           cut.
Proof.
  intros eligible; split; [apply prune_kept_descending|].
  unfold pruneFragments; fold eligible; split.
  - now rewrite length_firstn, sort_by_salience_length.
  - exists (skipn maxKeep (sort_by_salience eligible)); split.
    + rewrite firstn_skipn; apply sort_by_salience_perm.
    + apply descending_split, sort_by_salience_descending.
Qed.

(** X26: pruning twice is pruning once, at the same turn and cap. *)
Theorem prune_idempotent (frags : list MemoryFragment) (t : Z) (maxKeep : nat) :
  pruneFragments (pruneFragments frags t maxKeep) t maxKeep
  = pruneFragments frags t maxKeep.
Proof.
  set (once := pruneFragments frags t maxKeep).
  unfold pruneFragments at 1.
  rewrite filter_all.
  - rewrite sort_by_salience_sorted by apply prune_kept_descending.
    unfold once, pruneFragments; rewrite firstn_firstn.
    now rewrite Nat.min_id.
  - apply Forall_forall; intros f Hf.
    apply pruneFragments_In in Hf; destruct Hf as [_ Hf].
    apply negb_true_iff, andb_false_iff.
    destruct (ltb (f_salience f) 0.06) eqn:E1; [right | now left].
    apply ltb_true in E1; apply Z.ltb_ge.
    destruct (Z_le_gt_dec (t - f_turn f) 8) as [H|H]; [lia|].
    exfalso; apply Hf; split; [assumption | lia].
Qed.

Lemma topSalience_fold (xs : list R) : forall a,
  (a <= fold_left Rmax xs a) /\
  Forall (fun x => x <= fold_left Rmax xs a) xs /\
  (fold_left Rmax xs a = a \/ In (fold_left Rmax xs a) xs).
Proof.
  induction xs as [|x xs IH]; intros a; simpl.
  - split; [lra|]; split; [constructor | now left].
  - destruct (IH (Rmax a x)) as (H1 & H2 & H3).
    pose proof (Rmax_l a x); pose proof (Rmax_r a x).
    split; [lra|]; split; [constructor; [lra | assumption]|].
    destruct H3 as [H3|H3]; [|right; now right].
    rewrite H3; unfold Rmax; destruct (Rle_dec a x); [right; now left | now left].
Qed.

Lemma topSalience_spec (frags : list MemoryFragment) :
  Forall (fun f => f_salience f <= topSalience frags) frags /\
  match frags with
  | [] => topSalience frags = 0
  | _ => exists f, In f frags /\ f_salience f = topSalience frags
  end.
Proof.
  destruct frags as [|f fs]; [split; [constructor | reflexivity]|].
  unfold topSalience.
  destruct (topSalience_fold (map f_salience fs) (f_salience f)) as (H1 & H2 & H3).
  split.
  - constructor; [assumption|].
    apply Forall_forall; intros g Hg; rewrite Forall_forall in H2.
    apply H2, in_map_iff; eauto.
  - destruct H3 as [H3|H3]; [exists f; split; [now left | now rewrite H3]|].
    apply in_map_iff in H3; destruct H3 as (g & Hg & Hin).
    exists g; split; [now right | assumption].
Qed.

Lemma sort_head_is_top (frags : list MemoryFragment) :
  match sort_by_salience frags with
  | [] => frags = []
  | g :: _ => f_salience g = topSalience frags
  end.
Proof.
  pose proof (sort_by_salience_descending frags) as Hd.
  pose proof (sort_by_salience_In frags) as Hin.
  pose proof (sort_by_salience_length frags) as Hlen.
  destruct (sort_by_salience frags) as [|g gs] eqn:E.
  - destruct frags; [reflexivity | simpl in Hlen; discriminate].
  - destruct (topSalience_spec frags) as [Hall Hex].
    destruct frags as [|f fs]; [simpl in Hlen; discriminate|].
    destruct Hex as (m & Hm & Hms).
    assert (Hg : In g (f :: fs)) by (apply Hin; now left).
    rewrite Forall_forall in Hall; specialize (Hall g Hg).
    apply Hin in Hm; destruct Hm as [->|Hm]; [assumption|].
    unfold descending in Hd; inversion Hd as [|? ? _ Hgs]; subst.
    rewrite Forall_forall in Hgs; specialize (Hgs m Hm); lra.
Qed.

Lemma pickTopFragments_spec_aux (frags : list MemoryFragment) (k : Z) :
  Forall (fun f => In f frags) (pickTopFragments frags k) /\
  match pickTopFragments frags k with
  | [] => (k <= 0)%Z \/ frags = []
  | g :: _ => f_salience g = topSalience frags
  end.
Proof.
  unfold pickTopFragments.
  destruct (k <=? 0)%Z eqn:E.
  - apply Z.leb_le in E; split; [constructor | now left].
  - apply Z.leb_gt in E; split.
    { apply Forall_forall; intros f Hf.
      apply In_firstn in Hf; now apply sort_by_salience_In. }
    pose proof (sort_head_is_top frags) as Hh.
    destruct (Z.to_nat k) as [|n] eqn:Ek; [lia|].
    destruct (sort_by_salience frags) as [|g gs]; simpl; [now right | exact Hh].
Qed.

(** X27: [pickTopFragments] returns nothing for [k <= 0]; otherwise it
    returns [min k (bank size)] fragments of the bank, ranked by salience,
    the first of them with the top salience of the bank, and no fragment
    left out is more salient than a picked one. *)
Theorem pickTopFragments_spec (frags : list MemoryFragment) (k : Z) :
  length (pickTopFragments frags k) = Nat.min (Z.to_nat k) (length frags) /\
  Forall (fun f => In f frags) (pickTopFragments frags k) /\
  descending (pickTopFragments frags k) /\
  match pickTopFragments frags k with
  | [] => (k <= 0)%Z \/ frags = []
  | g :: _ => f_salience g = topSalience frags
  end /\
  exists rest,
    Permutation (pickTopFragments frags k ++ rest) frags /\
    Forall (fun d => Forall (fun g => f_salience d <= f_salience g)
                            (pickTopFragments frags k))
           rest.
Proof.
  unfold pickTopFragments.
  destruct (k <=? 0)%Z eqn:E.
  - apply Z.leb_le in E.
    replace (Z.to_nat k) with 0%nat by lia; simpl.
    split; [reflexivity|]; split; [constructor|].
    split; [constructor|]; split; [now left|].
    exists frags; split; [reflexivity|].
    apply Forall_forall; intros; constructor.
  - apply Z.leb_gt in E.
    split; [now rewrite length_firstn, sort_by_salience_length|].
    split.
    { apply Forall_forall; intros f Hf.
      apply In_firstn in Hf; now apply sort_by_salience_In. }
    split; [apply descending_firstn, sort_by_salience_descending|].
    split.
    { pose proof (sort_head_is_top frags) as Hh.
      destruct (Z.to_nat k) as [|n] eqn:Ek; [lia|].
      destruct (sort_by_salience frags) as [|g gs]; simpl; [now right | exact Hh]. }
    exists (skipn (Z.to_nat k) (sort_by_salience frags)); split.
    + rewrite firstn_skipn; apply sort_by_salience_perm.
    + apply descending_split, sort_by_salience_descending.
Qed.

(** X28: a very salient note is always injected.  If some fragment of the
    bank is more salient than 0.9, then for every state the fragment
    budget is at least 1 and the selection for that budget starts with a
    fragment of the top salience. *)
Theorem very_salient_note_is_picked (frags : list MemoryFragment) (state : R) :
  Exists (fun f => 0.9 < f_salience f) frags ->
  (1 <= frag_items state (topSalience frags))%Z /\
  exists g rest,
    pickTopFragments frags (frag_items state (topSalience frags)) = g :: rest /\
    In g frags /\
    f_salience g = topSalience frags /\ 0.9 < f_salience g.
Proof.
  intros Hex; apply Exists_exists in Hex; destruct Hex as (f & Hf & Hs).
  destruct (topSalience_spec frags) as [Hall _].
  rewrite Forall_forall in Hall; pose proof (Hall f Hf) as Htop.
  assert (Hk : (1 <= frag_items state (topSalience frags))%Z).
  { unfold frag_items.
    assert (Hb : (0 <= clampZ 0 10 (round (lerp 0 10 (smoothstep 0.20 0.86 state)))
                  <= 10)%Z) by (apply clampZ_range; lia).
    assert (E : ltb 0.9 (topSalience frags) = true) by (apply ltb_true; lra).
    rewrite E, andb_true_r.
    destruct (Z.eqb_spec
                (clampZ 0 10 (round (lerp 0 10 (smoothstep 0.20 0.86 state)))) 0);
      lia. }
  split; [exact Hk|].
  destruct (pickTopFragments_spec_aux frags (frag_items state (topSalience frags)))
    as (Hin & Hhead).
  destruct (pickTopFragments frags (frag_items state (topSalience frags)))
    as [|g rest] eqn:Ep.
  - destruct Hhead as [H|H]; [lia | subst; contradiction].
  - exists g, rest; split; [reflexivity|].
    inversion Hin; subst; repeat split; try assumption; lra.
Qed.

Lemma rehearse_keys frags picked t :
  map f_key (rehearseFragments frags picked t) = map f_key frags.
Proof.
  unfold rehearseFragments; rewrite map_map; apply map_ext.
  intros f; now destruct (existsb _ _).
Qed.

Lemma rehearse_salience_range frags picked t :
  Forall (fun f => 0 <= f_salience f <= 1.2) frags ->
  Forall (fun f => 0 <= f_salience f <= 1.2) (rehearseFragments frags picked t).
Proof.
  intros H; unfold rehearseFragments; apply Forall_forall; intros g Hg.
  apply in_map_iff in Hg; destruct Hg as (f & <- & Hf).
  rewrite Forall_forall in H; specialize (H f Hf).
  destruct (existsb _ _); [simpl; apply clamp_range; lra | assumption].
Qed.

Lemma existsb_id_In (x : string) (ids : list string) :
  existsb (String.eqb x) ids = true <-> In x ids.
Proof.
  rewrite existsb_exists; split.
  - intros (y & Hy & E); apply String.eqb_eq in E; now subst.
  - intros H; exists x; split; [assumption | apply String.eqb_refl].
Qed.

(** X29: rehearsal touches only the picked.  On a bank with saliences in
    [0, 1.2], every fragment whose id is among the picked ids gets the
    turn as [last_used_turn] and the salience [min 1.2 (salience + 0.05)],
    every other fragment is left exactly as it was; keys, ids and order
    are unchanged and all saliences stay in [0, 1.2]. *)
Theorem rehearseFragments_spec
    (frags picked : list MemoryFragment) (t : Z) :
  Forall (fun f => 0 <= f_salience f <= 1.2) frags ->
  map f_key (rehearseFragments frags picked t) = map f_key frags /\
  map f_id (rehearseFragments frags picked t) = map f_id frags /\
  Forall (fun f => 0 <= f_salience f <= 1.2) (rehearseFragments frags picked t) /\
  Forall2 (fun f g =>
             (In (f_id f) (map f_id picked) ->
                f_last_used_turn g = t /\
                f_salience g = Rmin 1.2 (f_salience f + 0.05) /\
                f_salience f <= f_salience g /\
                f_text g = f_text f /\ f_turn g = f_turn f) /\
             (~ In (f_id f) (map f_id picked) -> g = f))
          frags (rehearseFragments frags picked t).
Proof.
  intros Hall; split; [apply rehearse_keys|]; split; [|split].
  - unfold rehearseFragments; rewrite map_map; apply map_ext.
    intros f; now destruct (existsb _ _).
  - now apply rehearse_salience_range.
  - unfold rehearseFragments.
    induction Hall as [|f fs Hf _ IH]; simpl; constructor; [|exact IH].
    destruct (existsb (String.eqb (f_id f)) (map f_id picked)) eqn:E.
    + split; [|intros Hn; apply existsb_id_In in E; contradiction].
      intros _; simpl.
      assert (Hc : clamp 0 1.2 (f_salience f + 0.05)
                   = Rmin 1.2 (f_salience f + 0.05)).
      { unfold clamp, Rmax, Rmin; repeat destruct (Rle_dec _ _); lra. }
      rewrite Hc; repeat split; try reflexivity.
      unfold Rmin; destruct (Rle_dec _ _); lra.
    + split; [|reflexivity].
      intros Hin; apply existsb_id_In in Hin; congruence.
Qed.

Lemma rehearseFragments_spec_witness :
  map f_key (rehearseFragments [note_risk; note_goal] [note_risk] 5)
  = map f_key [note_risk; note_goal].
Proof.
  apply (rehearseFragments_spec [note_risk; note_goal] [note_risk] 5).
  repeat constructor; simpl; lra.
Defined.

Lemma decay_keys frags s :
  map f_key (fst (decayFragments frags s)) = map f_key frags.
Proof. unfold decayFragments; cbn [fst]; now rewrite map_map. Qed.

Lemma decay_salience_range frags s :
  Forall (fun f => 0 <= f_salience f <= 1.2) (fst (decayFragments frags s)).
Proof.
  unfold decayFragments; cbn [fst]; apply Forall_forall; intros g Hg.
  apply in_map_iff in Hg; destruct Hg as (f & <- & _); simpl.
  apply clamp_range; lra.
Qed.

Lemma prune_bank_ok frags t :
  NoDup (map f_key frags) ->
  Forall (fun f => 0 <= f_salience f <= 1.2) frags ->
  bank_ok (pruneFragments frags t 40).
Proof.
  intros Hnd Hsal; unfold bank_ok, pruneFragments; split; [|split].
  - apply NoDup_map_firstn.
    eapply Permutation_NoDup;
      [apply Permutation_map, Permutation_sym, sort_by_salience_perm|].
    now apply NoDup_map_filter.
  - apply Forall_forall; intros f Hf.
    apply In_firstn, sort_by_salience_In, filter_In in Hf.
    rewrite Forall_forall in Hsal; now apply Hsal.
  - apply firstn_le_length.
Qed.

Section BankRuns.

Variable parseProbeFields : string -> Fields.
Variable parseCandidates : string -> list ProbeFields.
Variable parsePick : string -> option Z.
Variable fragmentText : option string -> option string -> option string -> string.
Variable makeFragmentKey : option string -> option string -> option string -> string.

Let post := POST parseProbeFields parseCandidates parsePick fragmentText
                 makeFragmentKey.
Let run' := run parseProbeFields parseCandidates parsePick fragmentText
                makeFragmentKey.
Let phase := fragmentPhase fragmentText makeFragmentKey.

Lemma fragmentPhase_bank_ok frags t eff state new_id :
  NoDup (map f_key frags) -> bank_ok (phase frags t eff state new_id).
Proof.
  intros Hnd; unfold phase, fragmentPhase.
  pose proof (decay_keys frags state) as Hk.
  pose proof (decay_salience_range frags state) as Hs.
  destruct (decayFragments frags state) as [frags1 factor]; cbn [fst] in Hk, Hs.
  assert (Hnd1 : NoDup (map f_key frags1)) by now rewrite Hk.
  destruct (String.eqb _ EmptyString); [now apply prune_bank_ok|].
  apply prune_bank_ok.
  - now apply upsert_keys_NoDup.
  - unfold upsertFragment; destruct (find _ frags1); cbn [fst].
    + now apply merge_first_salience.
    + apply Forall_app; split; [assumption|].
      constructor; [simpl; apply clamp_range; lra | constructor].
Qed.

Lemma POST_fragments sess inp text lp :
  probe inp = Some (text, lp) ->
  exists eff state k,
    let bank := phase (fragments sess) (turn sess + 1) eff state
                      (new_fragment_id inp) in
    fragments (fst (post sess inp))
    = match pickTopFragments bank k with
      | [] => bank
      | _ => rehearseFragments bank (pickTopFragments bank k) (turn sess + 1)
      end.
Proof.
  intros Hp; unfold post, POST; rewrite Hp.
  destruct (baselinePhase (S_stats (gate sess)) _) as [zS stS] eqn:ES.
  destruct (baselinePhase (H_stats (gate sess)) _) as [zH stH] eqn:EH.
  destruct (scorePhase _ zS zH) as [score rawS] eqn:Esc.
  match goal with
  | |- context [maybeRelaxMetaCapStage ?g ?t] =>
      destruct (maybeRelaxMetaCapStage g t) as [[g5 ch] sh] eqn:Er
  end.
  do 3 eexists; cbn [fst fragments]; unfold phase; reflexivity.
Qed.

Lemma POST_bank_ok sess inp :
  bank_ok (fragments sess) -> bank_ok (fragments (fst (post sess inp))).
Proof.
  intros Hok.
  destruct (probe inp) as [[text lp]|] eqn:Hp.
  2:{ unfold post, POST; rewrite Hp; exact Hok. }
  destruct (POST_fragments sess inp text lp Hp) as (eff & state & k & E).
  cbv zeta in E; rewrite E; clear E.
  destruct Hok as (Hnd & _ & _).
  pose proof (fragmentPhase_bank_ok (fragments sess) (turn sess + 1) eff state
                (new_fragment_id inp) Hnd) as Hb.
  destruct (pickTopFragments _ k) as [|p ps]; [exact Hb|].
  destruct Hb as (B1 & B2 & B3); unfold bank_ok.
  rewrite rehearse_keys; split; [assumption|]; split.
  - now apply rehearse_salience_range.
  - now rewrite <- (length_map f_key), rehearse_keys, length_map.
Qed.

(** X30: the fragment bank keeps its bounds throughout a session.  The
    empty bank of a fresh session satisfies them, and from any session
    whose bank has pairwise distinct keys, saliences in [0, 1.2] and at
    most 40 fragments, every run of turns (answered or failed) ends with
    a bank that does: decay, upsert, prune and rehearsal together never
    break them. *)
Theorem bank_invariant :
  bank_ok (fragments getSession_new) /\
  (forall sess inps,
     bank_ok (fragments sess) -> bank_ok (fragments (run' sess inps))).
Proof.
  split.
  - unfold bank_ok; simpl; repeat split; try constructor; lia.
  - intros sess inps; revert sess; unfold run'.
    induction inps as [|inp rest IH]; intros sess Hok; simpl; [assumption|].
    apply IH, POST_bank_ok, Hok.
Qed.

End BankRuns.


(** ** The properties above on concrete turns *)

(** X14 on the first turn of a fresh session. *)
Lemma answered_turn_outputs_witness :
  exists state,
    0 <= state <= 1 /\
    last_state
      (gate (fst (POST fields_of_probe no_candidates no_pick text_of_frame
                       key_of_frame getSession_new steady_probe))) = state.
Proof.
  destruct (answered_turn_outputs fields_of_probe no_candidates no_pick
              text_of_frame key_of_frame getSession_new steady_probe
              _ _ eq_refl) as (state & H1 & H2 & _).
  exists state; split; assumption.
Defined.

(** X15 on two turns of a fresh session. *)
Lemma session_bounds_invariant_witness :
  session_bounds
    (run fields_of_probe no_candidates no_pick text_of_frame key_of_frame
         getSession_new [steady_probe; risk_probe_without_logprobs]).
Proof.
  apply (proj2 (session_bounds_invariant fields_of_probe no_candidates no_pick
                  text_of_frame key_of_frame)).
  apply (proj1 (session_bounds_invariant fields_of_probe no_candidates no_pick
                  text_of_frame key_of_frame)).
Defined.

(** X16 on the second turn of a fresh session. *)
Lemma no_pulse_before_eight_turns_witness :
  candidates_requested
    (snd (POST fields_of_probe no_candidates no_pick text_of_frame key_of_frame
               (run fields_of_probe no_candidates no_pick text_of_frame
                    key_of_frame getSession_new [steady_probe])
               steady_probe))
  = false.
Proof.
  apply (no_pulse_before_eight_turns fields_of_probe no_candidates no_pick
           text_of_frame key_of_frame getSession_new [steady_probe] steady_probe).
  simpl; lia.
Defined.

(** X17 two turns after a pulse, on a session that still stagnates. *)
Lemma pulse_cooldown_witness :
  candidates_requested
    (snd (POST fields_of_probe no_candidates no_pick text_of_frame key_of_frame
               (run fields_of_probe no_candidates no_pick text_of_frame
                    key_of_frame pulsed_session [steady_probe])
               steady_probe))
  = false.
Proof.
  apply (pulse_cooldown fields_of_probe no_candidates no_pick
           text_of_frame key_of_frame [steady_probe] pulsed_session steady_probe).
  simpl; lia.
Defined.

(** X19 on a first turn without log-probabilities. *)
Lemma baselines_update_only_with_signal_witness :
  S_stats (gate (fst (POST fields_of_probe no_candidates no_pick text_of_frame
                           key_of_frame getSession_new
                           risk_probe_without_logprobs)))
  = S_stats (gate getSession_new).
Proof.
  apply (proj1 (baselines_update_only_with_signal fields_of_probe no_candidates
                  no_pick text_of_frame key_of_frame getSession_new
                  risk_probe_without_logprobs _ _ eq_refl)).
  reflexivity.
Defined.

(** X28 on a bank of one vivid note, at a low state. *)
Lemma very_salient_note_is_picked_witness :
  (1 <= frag_items 0.1 (topSalience [note_vivid]))%Z.
Proof.
  apply (very_salient_note_is_picked [note_vivid] 0.1).
  constructor; simpl; lra.
Defined.

(** X30 on the first turn of a fresh session. *)
Lemma bank_invariant_witness :
  bank_ok (fragments
             (run fields_of_probe no_candidates no_pick text_of_frame
                  key_of_frame getSession_new [steady_probe])).
Proof.
  apply (proj2 (bank_invariant fields_of_probe no_candidates no_pick
                  text_of_frame key_of_frame)).
  apply (proj1 (bank_invariant fields_of_probe no_candidates no_pick
                  text_of_frame key_of_frame)).
Defined.
